(** * SkylinkJS: signaling socket, peer session and user data

    A shallow embedding of [source/socket-channel.js] (the classes
    [SkylinkSocket] and [Peer]) and of the user-data part of [Skylink]
    ([setUserData], [getUserData], [_parseUserData], [getPeerInfo]).

    JavaScript objects are records, object-as-map values are [gmap]s,
    arrays are lists.  Mutation is explicit state passing.  Calls that leave
    the object (socket.io, timers, the listener callback, the log lines that
    report a dropped message) are appended to an effect log so that theorems
    can speak about what was emitted and in which order. *)

From Stdlib Require Import ZArith List Bool Ascii String Lia.
From stdpp Require Import base option list strings gmap pretty.

Open Scope string_scope.
Open Scope list_scope.
Open Scope Z_scope.

(** ** SkylinkSocket *)

Module Socket.

(** [window.location.protocol]; the port table has exactly these two keys. *)
Inductive scheme := Http | Https.

Definition protocol_str (p : scheme) : string :=
  match p with Http => "http:" | Https => "https:" end.

(** Keys of [_transports]. *)
Inductive kind := WebSocket | Polling.

Definition _transports (t : kind) : list string :=
  match t with
  | WebSocket => ["websocket"]
  | Polling => ["xhr-polling"; "jsonp-polling"; "polling"]
  end.

(** [_connection.port] is a number, or [undefined] after reading the first
    element of an empty port array. *)
Inductive jsport := PortNum (n : Z) | PortUndefined.

Definition port_str (p : jsport) : string :=
  match p with PortNum n => pretty n | PortUndefined => "undefined" end.

Record port_table := mkPorts { https_ports : list Z; http_ports : list Z }.

Definition ports_of (t : port_table) (p : scheme) : list Z :=
  match p with Https => https_ports t | Http => http_ports t end.

(** [defaults.ports] *)
Definition defaults_ports : port_table :=
  {| https_ports := [443; 3443]; http_ports := [6001; 80; 3000] |}.

(** [_connection] *)
Record connection := mkConnection {
  path : option string;
  retries_max : Z;
  retries_delay : Z;
  retries_current : Z;
  port : jsport;
  transport : kind;
  transportFallback : bool
}.

(** A signaling message: the envelope fields plus an opaque body. *)
Record message := mkMessage {
  m_type : string;
  m_mid : string;
  m_rid : string;
  m_body : string
}.

(** What is handed to the send callback: the message itself, or the object
    [{type: 'group', lists: ..., mid: ..., rid: ...}]. *)
Inductive frame :=
| Single (m : message)
| Group (lists : list message) (mid rid : string).

(** What [_messaging.timestamp] holds: [null] at first, then the value of
    [Date.now() || function() { return +new Date(); }], which is the clock
    reading, or the function when the clock reads 0. *)
Inductive stamp := TsNull | TsNumber (n : Z) | TsFunction.

(** [Date.now() || function() { return +new Date(); }] when [Date.now()]
    reads [now]. *)
Definition Date_now (now : Z) : stamp :=
  if now =? 0 then TsFunction else TsNumber now.

(** [_messaging]; [interval], [throughput] and [typesToQueue] are never
    assigned and are the constants below. *)
Record messaging := mkMessaging {
  queue : list message;
  timestamp : stamp;
  timer : option nat
}.

Definition interval : Z := 1000.
Definition throughput : nat := 16.
Definition typesToQueue : list string :=
  ["stream"; "updateUserEvent"; "roomLockEvent"; "muteAudioEvent";
   "muteVideoEvent"; "public"].

(** Events published with [_trigger]. *)
Inductive event :=
| connectError (code : Z) (error : option string) (t : kind)
| connectRetry (fallbackType : string) (current : Z)
| ev_connect
| ev_disconnect
| ev_error (error : string)
| ev_message (data : string).

Inductive effect :=
| IoConnect (id : nat) (c : connection) (timeout : Z)
    (* io.connect(c.path, { reconnectionAttempts: c.retries.max, timeout,
       transports: _transports[c.transport], ... }) creating socket [id] *)
| SocketSend (id : nat) (f : frame)       (* _socket.send(JSON.stringify(f)) *)
| SocketDisconnect (id : nat)             (* _socket.disconnect() *)
| DropWarn (f : frame)                    (* log.warn('Dropping message ...', f) *)
| Trigger (e : event).                    (* self._trigger(...) *)

(** The object's fields, followed by the part of the environment the
    methods touch: whether [window.WebSocket] exists, which socket objects
    still carry the handlers installed by [_listenToEvents], and the
    pending timeouts as (handle, due time). *)
Record state := mkState {
  server : string;
  ports : port_table;
  protocol : scheme;
  timeout_ : Z;
  connected : bool;
  dead : bool;
  _connection : connection;
  _socket : option nat;
  _messaging : messaging;
  hasWebSocket : bool;
  listening : list nat;
  sockets_made : nat;
  armed : list (nat * Z);
  timers_made : nat;
  out : list effect
}.

Definition set_flags (cn dd : bool) (s : state) : state :=
  mkState (server s) (ports s) (protocol s) (timeout_ s) cn dd
    (_connection s) (_socket s) (_messaging s) (hasWebSocket s)
    (listening s) (sockets_made s) (armed s) (timers_made s) (out s).

Definition set_ports (t : port_table) (s : state) : state :=
  mkState (server s) t (protocol s) (timeout_ s) (connected s) (dead s)
    (_connection s) (_socket s) (_messaging s) (hasWebSocket s)
    (listening s) (sockets_made s) (armed s) (timers_made s) (out s).

Definition set_connection (c : connection) (s : state) : state :=
  mkState (server s) (ports s) (protocol s) (timeout_ s) (connected s) (dead s)
    c (_socket s) (_messaging s) (hasWebSocket s)
    (listening s) (sockets_made s) (armed s) (timers_made s) (out s).

Definition set_messaging (m : messaging) (s : state) : state :=
  mkState (server s) (ports s) (protocol s) (timeout_ s) (connected s) (dead s)
    (_connection s) (_socket s) m (hasWebSocket s)
    (listening s) (sockets_made s) (armed s) (timers_made s) (out s).

Definition set_listening (l : list nat) (s : state) : state :=
  mkState (server s) (ports s) (protocol s) (timeout_ s) (connected s) (dead s)
    (_connection s) (_socket s) (_messaging s) (hasWebSocket s)
    l (sockets_made s) (armed s) (timers_made s) (out s).

Definition set_armed (a : list (nat * Z)) (s : state) : state :=
  mkState (server s) (ports s) (protocol s) (timeout_ s) (connected s) (dead s)
    (_connection s) (_socket s) (_messaging s) (hasWebSocket s)
    (listening s) (sockets_made s) a (timers_made s) (out s).

Definition emit (e : effect) (s : state) : state :=
  mkState (server s) (ports s) (protocol s) (timeout_ s) (connected s) (dead s)
    (_connection s) (_socket s) (_messaging s) (hasWebSocket s)
    (listening s) (sockets_made s) (armed s) (timers_made s) (out s ++ [e]).

(** [new] socket object: a fresh identity, stored in [_socket]. *)
Definition new_socket (s : state) : state :=
  mkState (server s) (ports s) (protocol s) (timeout_ s) (connected s) (dead s)
    (_connection s) (Some (S (sockets_made s))) (_messaging s) (hasWebSocket s)
    (listening s) (S (sockets_made s)) (armed s) (timers_made s) (out s).

Definition with_port (p : jsport) (c : connection) : connection :=
  mkConnection (path c) (retries_max c) (retries_delay c) (retries_current c)
    p (transport c) (transportFallback c).

Definition with_path (p : string) (c : connection) : connection :=
  mkConnection (Some p) (retries_max c) (retries_delay c) (retries_current c)
    (port c) (transport c) (transportFallback c).

Definition with_transport (t : kind) (fb : bool) (c : connection) : connection :=
  mkConnection (path c) (retries_max c) (retries_delay c) (retries_current c)
    (port c) t fb.

Definition with_current (n : Z) (c : connection) : connection :=
  mkConnection (path c) (retries_max c) (retries_delay c) n
    (port c) (transport c) (transportFallback c).

(** [_listenToEvents]: without a socket object only an error is logged;
    otherwise the handlers are installed on it. *)
Definition _listenToEvents (s : state) : state :=
  match _socket s with
  | None => s
  | Some id => set_listening (id :: listening s) s
  end.

(** [connect] *)
Definition connect (s : state) : state :=
  let c := _connection s in
  let c1 :=
    match port c with
    | PortNum 0 =>
        with_port (match ports_of (ports s) (protocol s) with
                   | p0 :: _ => PortNum p0
                   | [] => PortUndefined
                   end) c
    | _ => c
    end in
  let c2 :=
    with_path (protocol_str (protocol s) +:+ "//" +:+ server s +:+ ":"
               +:+ port_str (port c1)) c1 in
  let s1 := set_flags false false (set_connection c2 s) in
  let s2 := new_socket s1 in
  let s3 := emit (IoConnect (S (sockets_made s1)) c2 (timeout_ s)) s2 in
  _listenToEvents s3.

(** [disconnect] *)
Definition disconnect (s : state) : state :=
  match _socket s with
  | Some id => emit (SocketDisconnect id) s
  | None => s
  end.

(** [reset] *)
Definition reset (s : state) : state :=
  let c := _connection s in
  let c1 := with_current 0 (with_port (PortNum 0) (with_transport WebSocket false c)) in
  let c2 := if hasWebSocket s then c1
            else with_transport Polling (transportFallback c1) c1 in
  set_connection c2 s.

(** The callback that [send] passes to [_limitMessageInterval]. *)
Definition fn (groupMessage : frame) (s : state) : state :=
  match _socket s with
  | None => emit (DropWarn groupMessage) s
  | Some id =>
      if connected s then emit (SocketSend id groupMessage) s
      else emit (DropWarn groupMessage) s
  end.

(** [setTimeout(delayFn, delay)] at time [now]: a fresh non-zero handle,
    stored in [_messaging.timer]. *)
Definition setTimeout (now delay : Z) (s : state) : state :=
  let id := S (timers_made s) in
  let m := _messaging s in
  mkState (server s) (ports s) (protocol s) (timeout_ s) (connected s) (dead s)
    (_connection s) (_socket s) (mkMessaging (queue m) (timestamp m) (Some id))
    (hasWebSocket s) (listening s) (sockets_made s)
    (armed s ++ [(id, now + delay)]) id (out s).

(** [clearTimeout(_messaging.timer); _messaging.timer = null] *)
Definition clearTimer (s : state) : state :=
  let m := _messaging s in
  let a := match timer m with
           | Some id => filter (λ t, fst t ≠ id) (armed s)
           | None => armed s
           end in
  set_messaging (mkMessaging (queue m) (timestamp m) None) (set_armed a s).

Definition set_queue (q : list message) (s : state) : state :=
  let m := _messaging s in
  set_messaging (mkMessaging q (timestamp m) (timer m)) s.

(** [_messaging.timestamp = Date.now() || function() {...}] *)
Definition set_timestamp (now : Z) (s : state) : state :=
  let m := _messaging s in
  set_messaging (mkMessaging (queue m) (Date_now now) (timer m)) s.

(** [delayFn], the closure scheduled by [_limitMessageInterval], run at
    clock reading [now].  [splice(0, n)] removes and returns the first [n]
    elements. *)
Definition delayFn (now : Z) (s : state) : state :=
  match queue (_messaging s) with
  | [] => s
  | data :: _ =>
      let q := queue (_messaging s) in
      if (length q <? throughput)%nat then
        let s1 := set_queue [] s in
        let s2 := fn (Group q (m_mid data) (m_rid data)) s1 in
        let s3 := clearTimer s2 in
        set_timestamp now s3
      else
        let s1 := set_queue (drop throughput q) s in
        let s2 := fn (Group (take throughput q) (m_mid data) (m_rid data)) s1 in
        let s3 := clearTimer s2 in
        let s4 := setTimeout now interval s3 in
        set_timestamp now s4
  end.

(** [(Date.now() || function() {...}) - _messaging.timestamp]: a [null]
    timestamp converts to 0, and with a function on either side the
    difference is NaN, here [None]. *)
Definition elapsed (now : Z) (s : state) : option Z :=
  match Date_now now, timestamp (_messaging s) with
  | TsNumber n, TsNumber t => Some (n - t)
  | TsNumber n, TsNull => Some n
  | _, _ => None
  end.

(** [typesToQueue.indexOf(message.type) > -1] *)
Definition must_queue (m : message) : bool :=
  bool_decide (m_type m ∈ typesToQueue).

(** [_limitMessageInterval(fn, message)] with [Date.now()] reading [now].
    A comparison with NaN is false, so the message is then handed over at
    once. *)
Definition _limitMessageInterval (now : Z) (m : message) (s : state) : state :=
  match elapsed now s with
  | Some e =>
      if (e <? interval) && must_queue m then
        let s1 := set_queue (queue (_messaging s) ++ [m]) s in
        match timer (_messaging s1) with
        | None => setTimeout now (interval - e) s1
        | Some _ => s1
        end
      else
        set_timestamp now (fn (Single m) s)
  | None => set_timestamp now (fn (Single m) s)
  end.

(** [send] *)
Definition send (now : Z) (m : message) (s : state) : state :=
  _limitMessageInterval now m s.

(** The event loop runs the timeout with handle [id] at time [now]: it
    leaves the pending set and [delayFn] runs.  Nothing happens when [id]
    is not pending or not yet due. *)
Definition timer_fires (id : nat) (now : Z) (s : state) : state :=
  if existsb (λ t, (fst t =? id)%nat && (snd t <=? now)) (armed s) then
    delayFn now (set_armed (filter (λ t, fst t ≠ id) (armed s)) s)
  else s.

(** [Array.prototype.indexOf] on the port array. *)
Fixpoint indexOf_from (i : Z) (l : list Z) (x : jsport) : Z :=
  match l with
  | [] => -1
  | y :: l' =>
      match x with
      | PortNum n => if y =? n then i else indexOf_from (i + 1) l' x
      | PortUndefined => indexOf_from (i + 1) l' x
      end
  end.

Definition indexOf (l : list Z) (x : jsport) : Z := indexOf_from 0 l x.

(** [ports[i]] *)
Definition port_at (l : list Z) (i : Z) : jsport :=
  match l !! Z.to_nat i with
  | Some p => if 0 <=? i then PortNum p else PortUndefined
  | None => PortUndefined
  end.

Definition fallbackType_of (index : Z) (s : state) : string :=
  if (0 <? index) || transportFallback (_connection s) then
    match protocol s, transport (_connection s) with
    | Http, WebSocket => "fallbackPortNonSSL"
    | Http, Polling => "fallbackLongPollingNonSSL"
    | Https, WebSocket => "fallbackPortSSL"
    | Https, Polling => "fallbackLongPollingSSL"
    end
  else "nonfallback".

Definition aborted_message : string :=
  "Socket reconnection is aborted as all transports type and ports have been attempted".

(** The tail of [_reconnect]: publish [connectRetry] and connect again. *)
Definition retry (index : Z) (s : state) : state :=
  connect (emit (Trigger (connectRetry (fallbackType_of index s)
                            (retries_current (_connection s)))) s).

(** [_reconnect] *)
Definition _reconnect (s : state) : state :=
  let s0 :=
    match _socket s with
    | Some id => disconnect (set_listening (filter (λ i, i ≠ id) (listening s)) s)
    | None => s
    end in
  let ps := ports_of (ports s0) (protocol s0) in
  let c := _connection s0 in
  let index := indexOf ps (port c) in
  if index =? -1 then
    let t := ports s0 in
    let t1 := if (length (https_ports t) =? 0)%nat
              then mkPorts (https_ports defaults_ports) (http_ports t) else t in
    let t2 := if (length (http_ports t1) =? 0)%nat
              then mkPorts (https_ports t1) (http_ports defaults_ports) else t1 in
    retry 0 (set_ports t2 s0)
  else if index <? Z.of_nat (length ps) - 1 then
    retry index (set_connection (with_port (port_at ps (index + 1)) c) s0)
  else
    match transport c with
    | WebSocket =>
        retry index
          (set_connection (with_transport Polling true (with_port (port_at ps 0) c)) s0)
    | Polling =>
        emit (Trigger (connectError (-3) (Some aborted_message) Polling))
          (set_flags (connected s0) true s0)
    end.

(** What a socket.io-client object can report. *)
Inductive io_event :=
| io_connect_error (error : string)
| io_connect_timeout
| io_reconnect_attempt (attempt : Z)
| io_reconnect_error (error : string)
| io_reconnect_failed
| io_reconnecting (attempt : Z)
| io_connect
| io_reconnect
| io_error (error : string)
| io_disconnect
| io_message (messageString : string).

Definition dquote : string := String "034"%char EmptyString.

Definition reconnect_failed_message (s : state) : string :=
  "Socket reeconnection attempts have failed for port "
  +:+ port_str (port (_connection s)) +:+ " and transport " +:+ dquote
  +:+ match transport (_connection s) with
      | WebSocket => "WebSocket" | Polling => "Polling" end
  +:+ dquote.

(** The handlers installed by [_listenToEvents]. *)
Definition handler (e : io_event) (s : state) : state :=
  let t := transport (_connection s) in
  match e with
  | io_connect_error error =>
      if retries_current (_connection s) =? 0
      then emit (Trigger (connectError 0 (Some error) t)) s else s
  | io_connect_timeout => s
  | io_reconnect_attempt _ =>
      let c := _connection s in
      let s1 := set_connection (with_current (retries_current c + 1) c) s in
      emit (Trigger (connectError (-4) None t)) s1
  | io_reconnect_error error => emit (Trigger (connectError (-1) (Some error) t)) s
  | io_reconnect_failed =>
      _reconnect
        (emit (Trigger (connectError (-1) (Some (reconnect_failed_message s)) t)) s)
  | io_reconnecting _ => s
  | io_connect | io_reconnect => emit (Trigger ev_connect) (set_flags true (dead s) s)
  | io_error error => emit (Trigger (ev_error error)) s
  | io_disconnect => emit (Trigger ev_disconnect) (set_flags false (dead s) s)
  | io_message messageString => emit (Trigger (ev_message messageString)) s
  end.

(** Socket object [id] reports [e]: handled only while that object still
    carries the handlers ([removeAllListeners] in [_reconnect] takes them
    off; the two handlers it leaves only write debug lines). *)
Definition on_io (id : nat) (e : io_event) (s : state) : state :=
  if bool_decide (id ∈ listening s) then handler e s else s.

(** One more failure of the socket currently in use. *)
Definition current_fails (s : state) : state :=
  match _socket s with
  | Some id => on_io id io_reconnect_failed s
  | None => s
  end.

(** The connection attempts recorded in an effect log, as
    (port, transport kind) in the order they were issued. *)
Definition attempts (l : list effect) : list (jsport * kind) :=
  omap (λ e, match e with
             | IoConnect _ c _ => Some (port c, transport c)
             | _ => None
             end) l.

(** How many times the terminal [connectError(-3, ...)] was published. *)
Definition is_terminal (e : effect) : bool :=
  match e with
  | Trigger (connectError code _ _) => code =? -3
  | _ => false
  end.

Definition terminal_errors (l : list effect) : nat :=
  length (List.filter is_terminal l).

(** The frames handed to the send callback, sent or dropped with a
    warning, in order. *)
Definition handed (l : list effect) : list frame :=
  omap (λ e, match e with
             | SocketSend _ f => Some f
             | DropWarn f => Some f
             | _ => None
             end) l.

Definition sent (l : list effect) : list frame :=
  omap (λ e, match e with SocketSend _ f => Some f | _ => None end) l.

(** A fresh object: the prototype values, with the port table, protocol,
    server and timeout as [init] would set them. *)
Definition fresh (srv : string) (t : port_table) (p : scheme) (ws : bool) : state :=
  mkState srv t p 20000 false false
    (mkConnection None 4 1000 0 (PortNum 0) WebSocket false)
    None (mkMessaging [] TsNull None) ws [] 0 [] 0 [].

(** Everything that can happen to the object: a call of one of its public
    methods, a timeout of the event loop, a report of a socket object. *)
Inductive input :=
| call_connect
| call_disconnect
| call_reset
| call_send (now : Z) (m : message)
| timeout_fires (id : nat) (now : Z)
| socket_reports (id : nat) (e : io_event).

Definition step (s : state) (i : input) : state :=
  match i with
  | call_connect => connect s
  | call_disconnect => disconnect s
  | call_reset => reset s
  | call_send now m => send now m s
  | timeout_fires id now => timer_fires id now s
  | socket_reports id e => on_io id e s
  end.

Definition run (s : state) (l : list input) : state := foldl step s l.

(** The envelope [delayFn] builds around the messages [q] it takes. *)
Definition envelope (q : list message) : option frame :=
  match q with
  | [] => None
  | data :: _ => Some (Group q (m_mid data) (m_rid data))
  end.

(** Submitting messages one after the other, each at its own clock
    reading. *)
Definition submit (s : state) (burst : list (Z * message)) : state :=
  foldl (λ s tm, send (fst tm) (snd tm) s) s burst.

(** The order in which a campaign over the ports [ps] visits them: under
    WebSocket, then under Polling. *)
Definition plan (ps : list Z) : list (jsport * kind) :=
  map (λ p, (PortNum p, WebSocket)) ps ++ map (λ p, (PortNum p, Polling)) ps.

(** The socket in use is live and the cursor stands on port [p] under
    transport [t]. *)
Definition at_port (ps : list Z) (p : Z) (t : kind) (s : state) : Prop :=
  ports_of (ports s) (protocol s) = ps ∧
  port (_connection s) = PortNum p ∧
  transport (_connection s) = t ∧
  dead s = false ∧ connected s = false ∧
  ∃ id, _socket s = Some id ∧ id ∈ listening s.

(** The transport has given up: the flag is set and the socket in use no
    longer carries handlers. *)
Definition given_up (s : state) : Prop :=
  dead s = true ∧ connected s = false ∧
  ∃ id, _socket s = Some id ∧ id ∉ listening s.

(** Where the cursor stands after [n] failures of a campaign over [ps]. *)
Definition cursor (ps : list Z) (n : nat) (p : Z) (t : kind) : Prop :=
  ((n < length ps)%nat ∧ t = WebSocket ∧ ps !! n = Some p) ∨
  ((length ps ≤ n)%nat ∧ t = Polling ∧ ps !! (n - length ps)%nat = Some p).

(** A campaign: [reset], [connect], then [n] failures in a row, each of
    the socket then in use. *)
Definition after_failures (s0 : state) (n : nat) : state :=
  Nat.iter n current_fails (connect (reset s0)).

(** "Once dead is true, connect is a no-op that never clears dead and
    issues no connection attempt", for the state [s]. *)
Definition dead_is_terminal (s : state) : Prop :=
  dead s = true →
  dead (connect s) = true ∧ attempts (out (connect s)) = attempts (out s).

(** "After k + m failures the transport is dead, having tried every port
    under the primary and then under the fallback kind", for a campaign
    started from [s0]; both kinds use the port list of the protocol. *)
Definition exhausted_as_planned (s0 : state) : Prop :=
  let ps := ports_of (ports s0) (protocol s0) in
  let s := after_failures s0 (length ps + length ps) in
  dead s = true ∧ attempts (out s) = attempts (out s0) ++ plan ps.

Definition signaling_server : string := "signaling.temasys.com.sg".

(** A transport that has run out of ports and transports: the default
    https ports, four failures. *)
Definition worn_out : state :=
  after_failures (fresh signaling_server defaults_ports Https true) 4.

(** A port list that names the same port twice. *)
Definition twice_80 : state :=
  fresh signaling_server (mkPorts [443; 3443] [80; 80]) Http true.

(** A browser without [window.WebSocket]. *)
Definition polling_only : state :=
  fresh signaling_server defaults_ports Http false.

(** A must-queue message with sender [mid]. *)
Definition mute (mid : string) : message :=
  mkMessage "muteAudioEvent" mid "room" "".

Definition late : message := mute "late".

(** Sixteen queued messages are drained in one envelope; the timeout that
    was scheduled for the remainder finds the queue empty; a later
    message is sent at once and the one after it is queued. *)
Definition sixteen_then_two : list input :=
  [call_connect; socket_reports 1 io_connect;
   call_send 5000 (mkMessage "enter" "self" "room" "")]
  ++ map (λ i, call_send 5100 (mute (pretty i))) (seq 0 16)
  ++ [timeout_fires 1 6000; timeout_fires 2 7000;
      call_send 7500 (mute "early"); call_send 7600 late].

Definition starved : state :=
  run (fresh signaling_server defaults_ports Https true) sixteen_then_two.

#[global] Instance message_eq_dec : EqDecision message.
Proof. solve_decision. Defined.

(** A frame carries the message [m]. *)
Definition carries (m : message) (f : frame) : Prop :=
  match f with
  | Single m' => m' = m
  | Group l _ _ => m ∈ l
  end.

#[global] Instance carries_dec m f : Decision (carries m f).
Proof. destruct f; simpl; apply _. Defined.

(** A connected transport that has just flushed: one message sent at
    clock reading 5000, nothing queued. *)
Definition flushed : state :=
  run (fresh signaling_server defaults_ports Https true)
    [call_connect; socket_reports 1 io_connect;
     call_send 5000 (mkMessage "enter" "self" "room" "")].

(** Twenty must-queue messages submitted 100 ms after that flush. *)
Definition twenty : list (Z * message) :=
  map (λ i, (5100, mute (pretty i))) (seq 0 20).

(** The messages a frame carries, in order. *)
Definition contents (f : frame) : list message :=
  match f with
  | Single m => [m]
  | Group l _ _ => l
  end.

(** The messages of the envelopes among the frames, in order. *)
Definition grouped (l : list frame) : list message :=
  concat (omap (λ f, match f with
                     | Group q _ _ => Some q
                     | Single _ => None
                     end) l).

(** The messages passed to [send] by a list of inputs, in order. *)
Definition submitted (l : list input) : list message :=
  omap (λ i, match i with call_send _ m => Some m | _ => None end) l.

(** An envelope holds at least one and at most [throughput] messages. *)
Definition within_cap (f : frame) : Prop :=
  match f with
  | Single _ => True
  | Group q _ _ => (0 < length q ≤ throughput)%nat
  end.

(** At most one timeout is pending, and it is the one whose handle is
    stored in [_messaging.timer]. *)
Definition one_timer (s : state) : Prop :=
  match armed s with
  | [] => True
  | [(id, _)] => timer (_messaging s) = Some id
  | _ => False
  end.


(** The event loop runs the pending timeout at its due time, up to
    [ticks] times. *)
Fixpoint settle (ticks : nat) (s : state) : state :=
  match ticks with
  | O => s
  | S n =>
      match armed s with
      | [] => s
      | (id, due) :: _ => settle n (timer_fires id due s)
      end
  end.

(** The first [n] envelopes that successive drains build from [q]. *)
Fixpoint envelopes (n : nat) (q : list message) : list frame :=
  match n with
  | O => []
  | S n' =>
      match envelope (take throughput q) with
      | Some g => g :: envelopes n' (drop throughput q)
      | None => []
      end
  end.




(** A transport kind is not before another: WebSocket comes first. *)
Definition kind_le (a b : kind) : Prop :=
  match a, b with
  | Polling, WebSocket => False
  | _, _ => True
  end.

(** The reconnection cursor of [s'] is not behind that of [s]: the retry
    count has not gone down, Polling has not gone back to WebSocket, and a
    raised fallback flag is still raised. *)
Definition not_behind (s s' : state) : Prop :=
  retries_current (_connection s) ≤ retries_current (_connection s') ∧
  kind_le (transport (_connection s)) (transport (_connection s')) ∧
  (transportFallback (_connection s) = true →
   transportFallback (_connection s') = true).

(** The fallback types published with [connectRetry], in order. *)
Definition retry_labels (l : list effect) : list string :=
  omap (λ e, match e with
             | Trigger (connectRetry fallbackType _) => Some fallbackType
             | _ => None
             end) l.

(** The socket objects that were told to disconnect, in order. *)
Definition disconnected (l : list effect) : list nat :=
  omap (λ e, match e with SocketDisconnect id => Some id | _ => None end) l.

End Socket.

(** ** State, effect log and exceptions

    The methods of [Peer] and [Skylink] mutate their object, call outwards
    and may throw a [TypeError] when they dereference [null]; the mutations
    made before the throw stay. *)

Module Eff.

Inductive result (A : Type) :=
| Ret (a : A)
| Raise (e : string).
Arguments Ret {A} a.
Arguments Raise {A} e.

Definition eff (St W A : Type) : Type := St → St * list W * result A.

Definition ret {St W A} (a : A) : eff St W A := λ s, (s, [], Ret a).

Definition bind {St W A B} (m : eff St W A) (k : A → eff St W B) : eff St W B :=
  λ s, match m s with
       | (s1, w1, Ret a) =>
           match k a s1 with (s2, w2, r) => (s2, w1 ++ w2, r) end
       | (s1, w1, Raise e) => (s1, w1, Raise e)
       end.

Definition gets {St W A} (f : St → A) : eff St W A := λ s, (s, [], Ret (f s)).
Definition modify {St W} (f : St → St) : eff St W unit := λ s, (f s, [], Ret tt).
Definition tell {St W} (w : W) : eff St W unit := λ s, (s, [w], Ret tt).
Definition raise {St W A} (e : string) : eff St W A := λ s, (s, [], Raise e).

(** Dereferencing a reference that may be [null]. *)
Definition deref {St W A} (f : St → option A) : eff St W A :=
  λ s, match f s with
       | Some a => (s, [], Ret a)
       | None => (s, [], Raise "TypeError")
       end.

Definition state_of {St W A} (r : St * list W * result A) : St := fst (fst r).
Definition log_of {St W A} (r : St * list W * result A) : list W := snd (fst r).
Definition value_of {St W A} (r : St * list W * result A) : result A := snd r.

End Eff.

Declare Scope eff_scope.
Delimit Scope eff_scope with eff.
Notation "x <-- m ;; k" := (Eff.bind m (λ x, k))
  (at level 100, m at next level, right associativity) : eff_scope.
Notation "m ;;; k" := (Eff.bind m (λ _, k))
  (at level 100, right associativity) : eff_scope.

(** ** Peer *)

Module Peer.
Import Eff.

Record description := mkDescription { d_type : string; d_sdp : string }.

(** [String.prototype.split('\r\n')] *)
Fixpoint split_crlf (s : string) : list string :=
  match s with
  | EmptyString => [EmptyString]
  | String c s' =>
      match Ascii.eqb c "013"%char, s' with
      | true, String c' s'' =>
          if Ascii.eqb c' "010"%char then EmptyString :: split_crlf s''
          else match split_crlf s' with
               | l :: ls => String c l :: ls
               | [] => [String c EmptyString]
               end
      | _, _ =>
          match split_crlf s' with
          | l :: ls => String c l :: ls
          | [] => [String c EmptyString]
          end
      end
  end.

Definition crlf : string := String "013"%char (String "010"%char EmptyString).

(** [Array.prototype.join('\r\n')] *)
Fixpoint join_crlf (l : list string) : string :=
  match l with
  | [] => EmptyString
  | [x] => x
  | x :: l' => x +:+ crlf +:+ join_crlf l'
  end.

(** [globals.bandwidth]: the configured sending caps. *)
Record bandwidth := mkBandwidth {
  bw_audio : option Z;
  bw_video : option Z;
  bw_data : option Z
}.

(** The [SDP] helper object is not part of the sources at hand; its three
    line transforms are taken as an interface. *)
Class SDP := {
  removeH264Support : list string → list string;
  addStereo : list string → list string;
  setBitrate : list string → bandwidth → list string
}.

(** What the browser hands to [onicecandidate]: an event whose
    [candidate] may be [null]. *)
Inductive iceEvent := IceEvent (candidate : option string).

(** [event.candidate || event] *)
Inductive received :=
| RCandidate (c : string)
| REvent (e : iceEvent).

(** A [DataChannel] wrapper: around a received channel with its label, or
    created locally with an id. *)
Inductive DataChannel :=
| Inbound (label : string)
| Local (id : option string).

(** A property of [com.datachannels]: [null], or an object.  The object is
    the plain [transfers] mapping ([None]) or a [DataChannel] ([Some]); in
    both cases it can carry properties keyed by label.

    A map of properties records what assignments [obj[key] = value] have
    done to the object.  Under every key but one that is an own property.
    The key '__proto__' is the exception: the object inherits it from
    [Object.prototype] as an accessor, so that an assignment under it
    creates no own property and replaces the prototype of the object
    instead.  The entry under '__proto__', if any, is therefore the
    prototype that was assigned, and [datachannels] itself follows the same
    convention. *)
Inductive slot :=
| SNull
| SObject (self : option DataChannel) (props : gmap string DataChannel).

(** [com.stream]: what [com.stream.config.audio.stereo] evaluates to,
    [None] when a link of that chain is missing. *)
Record Stream := mkStream { config_audio_stereo : option bool }.

(** The fields [bind] puts on an RTCPeerConnection object. *)
Record rtc := mkRtc {
  queueCandidate : list received;
  iceConnectionFiredStates : list string;
  newSignalingState : option string;
  newIceConnectionState : option string;
  ice_immediate : bool
}.

Definition new_rtc : rtc := mkRtc [] [] None None false.

Inductive payload :=
| PNone
| PDescription (d : description)
| PError (e : string).

(** Calls that leave the object: the listener callback and the methods of
    the RTCPeerConnection object [pc]. *)
Inductive action :=
| Listener (ev : string) (data : payload)
| New_RTCPeerConnection (pc : nat)
| Rtc_close (pc : nat)
| Rtc_createOffer (pc : nat)
| Rtc_createAnswer (pc : nat)
| Rtc_setLocalDescription (pc : nat) (d : description)
| Rtc_setRemoteDescription (pc : nat) (d : description)
| Rtc_addIceCandidate (pc : nat) (c : received).

(** The instance [com], the RTCPeerConnection objects it has created
    (by reference, since [connect] binds an object that [com] itself does
    not keep), and [globals.bandwidth]. *)
Record peer := mkPeer {
  id : option string;
  userId : string;
  readyState : string;
  stream : option Stream;
  datachannels : gmap string slot;
  RTCPeerConnection : option nat;
  heap : gmap nat rtc;
  globals_bandwidth : option bandwidth
}.

Definition set_stream (st : option Stream) (p : peer) : peer :=
  mkPeer (id p) (userId p) (readyState p) st (datachannels p)
    (RTCPeerConnection p) (heap p) (globals_bandwidth p).

Definition set_datachannels (d : gmap string slot) (p : peer) : peer :=
  mkPeer (id p) (userId p) (readyState p) (stream p) d
    (RTCPeerConnection p) (heap p) (globals_bandwidth p).

Definition set_heap (h : gmap nat rtc) (p : peer) : peer :=
  mkPeer (id p) (userId p) (readyState p) (stream p) (datachannels p)
    (RTCPeerConnection p) h (globals_bandwidth p).

(** The constructor: [com.id = config.id || null], [readyState = 'new'],
    [datachannels = { main: null, transfers: {} }]. *)
Definition Peer (config_id : option string) (config_userId : string) : peer :=
  mkPeer (if decide (config_id = Some "") then None else config_id)
    config_userId "new" None
    (<["main" := SNull]> (<["transfers" := SObject None ∅]> ∅))
    None ∅ None.

Abbreviation M := (eff peer action).

Open Scope eff_scope.

(** [bind] *)
Definition bind (bindPeer : nat) : M unit :=
  modify (λ p, set_heap
    (alter (λ r, mkRtc [] [] (Some "new") (Some "checking") (ice_immediate r))
       bindPeer (heap p)) p).

(** [connect]: the new object is bound but not stored in
    [com.RTCPeerConnection]. *)
Definition connect : M unit :=
  h <-- gets heap ;;
  let pc := fresh (dom h) in
  tell (New_RTCPeerConnection pc) ;;;
  modify (λ p, set_heap (<[pc := new_rtc]> (heap p)) p) ;;;
  bind pc.

(** [disconnect] *)
Definition disconnect : M unit :=
  pc <-- deref RTCPeerConnection ;;
  tell (Rtc_close pc).

(** [onDataChannel], for a received channel labelled [label]. *)
Definition onDataChannel (label : string) : M unit :=
  let channel := Inbound label in
  if decide (label = "main") then
    modify (λ p, set_datachannels (<["main" := SObject (Some channel) ∅]> (datachannels p)) p)
  else
    t <-- deref (λ p, match datachannels p !! "transfers" with
                      | Some (SObject o m) => Some (o, m)
                      | _ => None
                      end) ;;
    modify (λ p, set_datachannels
      (<["transfers" := SObject (fst t) (<[label := channel]> (snd t))]> (datachannels p)) p).

(** [onAddStream] *)
Definition onAddStream (st : Stream) : M unit :=
  modify (set_stream (Some st)).

(** [event.candidate || event] *)
Definition candidate_of (e : iceEvent) : received :=
  match e with
  | IceEvent (Some c) => if decide (c = "") then REvent e else RCandidate c
  | IceEvent None => REvent e
  end.

(** Modelled from the spec: [ICE.addCandidate], which [onIceCandidate]
    calls, is not among the sources.  "An inbound candidate always appends
    to pendingCandidates" until the drain step has run; after it candidates
    are applied immediately. *)
Definition ICE_addCandidate (bindPeer : nat) (c : received) : M unit :=
  r <-- deref (λ p, heap p !! bindPeer) ;;
  if ice_immediate r then tell (Rtc_addIceCandidate bindPeer c)
  else
    modify (λ p, set_heap
      (<[bindPeer := mkRtc (queueCandidate r ++ [c]) (iceConnectionFiredStates r)
                       (newSignalingState r) (newIceConnectionState r) false]>
         (heap p)) p).


(** [onIceCandidate] *)
Definition onIceCandidate (event : iceEvent) (bindPeer : nat) : M unit :=
  ICE_addCandidate bindPeer (candidate_of event).

(** Modelled from the spec: [fn.isSafe] is not among the sources; it
    guards the stereo transform, which runs "if the local media
    configuration marks audio as requiring stereo": the guarded expression
    evaluates, without throwing, to a true value. *)
Definition fn_isSafe (v : option bool) : bool := default false v.

Definition stereo_required (p : peer) : bool :=
  fn_isSafe (st ← stream p; config_audio_stereo st).

Definition set_newSignalingState (st : string) (pc : nat) : M unit :=
  modify (λ p, set_heap
    (alter (λ r, mkRtc (queueCandidate r) (iceConnectionFiredStates r) (Some st)
                   (newIceConnectionState r) (ice_immediate r)) pc (heap p)) p).

Section WithSDP.
Context `{SDP}.

(** The rewriting at the head of [setLocalDescription]; the stereo test
    is [fn.isSafe(function () { return com.stream.config.audio.stereo; })]. *)
Definition rewritten_sdp (p : peer) (sdp : string) : string :=
  let sdpLines := split_crlf sdp in
  let sdpLines := removeH264Support sdpLines in
  let sdpLines := if stereo_required p then addStereo sdpLines else sdpLines in
  let sdpLines := match globals_bandwidth p with
                  | Some b => setBitrate sdpLines b
                  | None => sdpLines
                  end in
  join_crlf sdpLines.

(** [setLocalDescription]; [failure] is what the primitive answers:
    [None] runs the success callback, [Some error] the error callback. *)
Definition setLocalDescription (localDescription : description)
    (failure : option string) : M unit :=
  p <-- gets (λ p, p) ;;
  let d := mkDescription (d_type localDescription)
             (rewritten_sdp p (d_sdp localDescription)) in
  pc <-- deref RTCPeerConnection ;;
  tell (Rtc_setLocalDescription pc d) ;;;
  match failure with
  | None =>
      tell (Listener "peer:local_description:success" PNone) ;;;
      if decide (d_type d = "answer")
      then set_newSignalingState "have-local-answer" pc
      else ret tt
  | Some error => tell (Listener "peer:local_description:error" (PError error))
  end.

(** [createOffer]; [generated] is what the primitive answers.  The
    listener is shown the offer as generated; [setLocalDescription] then
    rewrites the text of that same object. *)
Definition createOffer (generated : description + string)
    (failure : option string) : M unit :=
  pc <-- deref RTCPeerConnection ;;
  tell (Rtc_createOffer pc) ;;;
  match generated with
  | inl offer =>
      tell (Listener "peer:local_offer:success" (PDescription offer)) ;;;
      setLocalDescription offer failure
  | inr error => tell (Listener "peer:local_offer:failure" (PError error))
  end.

(** [createAnswer] *)
Definition createAnswer (generated : description + string)
    (failure : option string) : M unit :=
  pc <-- deref RTCPeerConnection ;;
  tell (Rtc_createAnswer pc) ;;;
  match generated with
  | inl offer =>
      tell (Listener "peer:local_answer:success" (PDescription offer)) ;;;
      setLocalDescription offer failure
  | inr error => tell (Listener "peer:local_answer:failure" (PError error))
  end.

End WithSDP.

(** [setRemoteDescription]; [new RTCSessionDescription(remoteSdp)] keeps
    the type and the text. *)
Definition setRemoteDescription (remoteSdp : description)
    (failure : option string) : M unit :=
  let remoteDescription := mkDescription (d_type remoteSdp) (d_sdp remoteSdp) in
  pc <-- deref RTCPeerConnection ;;
  tell (Rtc_setRemoteDescription pc remoteDescription) ;;;
  match failure with
  | None =>
      tell (Listener "peer:remote_description:success" PNone) ;;;
      if decide (d_type remoteDescription = "answer")
      then set_newSignalingState "have-remote-answer" pc
      else ret tt
  | Some error => tell (Listener "peer:remote_description:error" (PError error))
  end.

(** Modelled from the spec: [fn.isEmpty] is not among the sources; a
    channel "created with no transfer identifier" is the main one, so the
    test holds of an absent and of an empty identifier. *)
Definition fn_isEmpty (transferId : option string) : bool :=
  match transferId with
  | None => true
  | Some t => bool_decide (t = "")
  end.

(** [createDataChannel] *)
Definition createDataChannel (transferId : option string) : M unit :=
  if fn_isEmpty transferId then
    modify (λ p, set_datachannels
      (<["main" := SObject (Some (Local (id p))) ∅]> (datachannels p)) p)
  else
    modify (λ p, set_datachannels
      (<[default "" transferId := SObject (Some (Local transferId)) ∅]>
         (datachannels p)) p).

(** The channels assigned to the [transfers] mapping: its own properties
    and, under '__proto__', its prototype if one was assigned. *)
Definition transfers (p : peer) : gmap string DataChannel :=
  match datachannels p !! "transfers" with
  | Some (SObject None m) => m
  | _ => ∅
  end.






(** How many calls of a log reach into the primitive to generate or apply
    a description. *)
Definition is_negotiation_call (a : action) : bool :=
  match a with
  | Rtc_createOffer _ | Rtc_createAnswer _
  | Rtc_setLocalDescription _ _ | Rtc_setRemoteDescription _ _ => true
  | _ => false
  end.

(** The transform pipeline in the words of the specification: strip the
    codec's lines; then, if audio requires stereo, inject the stereo
    parameter; then, if a sending cap is configured, inject the bitrate
    limits. *)
Definition pipeline `{SDP} (stereo : bool) (cap : option bandwidth)
    (lines : list string) : list string :=
  let stripped := removeH264Support lines in
  let with_stereo := if stereo then addStereo stripped else stripped in
  match cap with
  | Some b => setBitrate with_stereo b
  | None => with_stereo
  end.

(** Transforms that leave a mark, so that their order shows. *)
Definition marking_SDP : SDP :=
  {| removeH264Support := λ l, l ++ ["a=strip"];
     addStereo := λ l, l ++ ["a=stereo"];
     setBitrate := λ l _, l ++ ["b=AS"] |}.

(** A session whose [RTCPeerConnection] has been set to a bound object. *)
Definition negotiating : peer :=
  mkPeer (Some "peer-1") "user-1" "new" None
    (<["main" := SNull]> (<["transfers" := SObject None ∅]> ∅))
    (Some 1%nat) (<[1%nat := mkRtc [] [] (Some "new") (Some "checking") false]> ∅)
    None.

(** The same session with a stereo stream and a sending cap. *)
Definition negotiating_stereo : peer :=
  mkPeer (Some "peer-1") "user-1" "new" (Some (mkStream (Some true)))
    (<["main" := SNull]> (<["transfers" := SObject None ∅]> ∅))
    (Some 1%nat) (<[1%nat := mkRtc [] [] (Some "new") (Some "checking") false]> ∅)
    (Some (mkBandwidth (Some 50) (Some 256) None)).

(** "The session's state transitions to failed", for the outcome [r] of a
    method. *)
Definition moved_to_failed (r : peer * list action * result unit) : Prop :=
  readyState (state_of r) = "failed".

(** The stereo condition as the spec words it, for a session whose local
    audio configuration requires stereo ([local_stereo]) or does not: the
    description handed to the primitive went through the pipeline with
    the stereo transform applied under exactly that condition. *)
Definition stereo_by_local_configuration `{SDP} (local_stereo : bool)
    (p : peer) (d : description) : Prop :=
  ∃ pc rest,
    log_of (setLocalDescription d None p) =
      Rtc_setLocalDescription pc
        (mkDescription (d_type d)
           (join_crlf (pipeline local_stereo (globals_bandwidth p)
                         (split_crlf (d_sdp d))))) :: rest.

(** Transforms that change nothing. *)
Definition identity_SDP : SDP :=
  {| removeH264Support := λ l, l;
     addStereo := λ l, l;
     setBitrate := λ l _, l |}.

(** A call of one of the methods of the instance, with what the
    primitive answers where the method asks it. *)
Inductive call :=
| call_connect
| call_disconnect
| call_bind (bindPeer : nat)
| call_onDataChannel (label : string)
| call_onAddStream (st : Stream)
| call_onIceCandidate (event : iceEvent) (bindPeer : nat)
| call_createOffer (generated : description + string) (failure : option string)
| call_createAnswer (generated : description + string) (failure : option string)
| call_setLocalDescription (d : description) (failure : option string)
| call_setRemoteDescription (d : description) (failure : option string)
| call_createDataChannel (transferId : option string).

Definition perform `{SDP} (c : call) : M unit :=
  match c with
  | call_connect => connect
  | call_disconnect => disconnect
  | call_bind bindPeer => bind bindPeer
  | call_onDataChannel label => onDataChannel label
  | call_onAddStream st => onAddStream st
  | call_onIceCandidate event bindPeer => onIceCandidate event bindPeer
  | call_createOffer generated failure => createOffer generated failure
  | call_createAnswer generated failure => createAnswer generated failure
  | call_setLocalDescription d failure => setLocalDescription d failure
  | call_setRemoteDescription d failure => setRemoteDescription d failure
  | call_createDataChannel transferId => createDataChannel transferId
  end.


Close Scope eff_scope.

End Peer.

(** ** Skylink: user data and peer information *)

Module Skylink.
Import Eff.

(** JSON-like values, as far as the methods inspect them. *)
#[local] Set Warnings "-register-all".
Inductive jsval :=
| JUndefined
| JNull
| JBool (b : bool)
| JNum (n : Z)
| JNaN
| JStr (s : string)
| JObj (fields : list (string * jsval)).

(** Conversion to boolean, as in [v || ''], [!v] and [if (v)]. *)
Definition truthy (v : jsval) : bool :=
  match v with
  | JUndefined | JNull | JNaN => false
  | JBool b => b
  | JNum n => negb (n =? 0)
  | JStr s => negb (bool_decide (s = ""))
  | JObj _ => true
  end.

(** [a || b] *)
Definition js_or (a b : jsval) : jsval := if truthy a then a else b.

(** [typeof v === 'string'] *)
Definition is_string (v : jsval) : bool :=
  match v with JStr _ => true | _ => false end.

(** The property key a value converts to in [obj[v]]. *)
Definition to_key (v : jsval) : string :=
  match v with
  | JUndefined => "undefined"
  | JNull => "null"
  | JBool true => "true"
  | JBool false => "false"
  | JNum n => pretty n
  | JNaN => "NaN"
  | JStr s => s
  | JObj _ => "[object Object]"
  end.

(** [_user]; [sid] is [undefined] until the session is joined. *)
Record user := mkUser { uid : string; sid : option string }.

(** [v !== sid] for a session id that is a string or [undefined]. *)
Definition differs (v : jsval) (sid : option string) : bool :=
  match v, sid with
  | JStr a, Some b => negb (bool_decide (a = b))
  | JUndefined, None => false
  | _, _ => true
  end.

Record streamSettings := mkSettings { audio : jsval; video : jsval; bandwidth : jsval }.

Record streamStatus := mkMediaStatus { audioMuted : jsval; videoMuted : jsval }.

Record peerInfo := mkPeerInfo {
  userData : jsval;
  settings : option streamSettings;
  mediaStatus : streamStatus;
  agent_name : string;
  agent_version : Z;
  room : jsval
}.

(** A value stored under a peer id: an information object, [null], or
    something that is not an object. *)
Inductive entry :=
| EInfo (i : peerInfo)
| ENull
| EOther.

(** [typeof e === 'object'] *)
Definition is_object (e : entry) : bool :=
  match e with EInfo _ | ENull => true | EOther => false end.

Record room_t := mkRoom { room_id : string }.

(** Signaling message types; only [UPDATE_USER] is used here. *)
Inductive sig_message_type := UPDATE_USER.

Record channel_message := mkChannelMessage {
  cm_type : sig_message_type;
  cm_mid : option string;
  cm_rid : string;
  cm_userData : jsval
}.

Inductive action :=
| SendChannelMessage (m : channel_message)       (* self._sendChannelMessage *)
| PeerUpdated (peerId : option string) (i : peerInfo) (isSelf : bool)
                                                  (* self._trigger('peerUpdated', ...) *)
| LogUpdated (d : jsval)                          (* log.log('Updated userData -> ', ...) *)
| WarnNotInRoom.                                  (* log.warn('User is not in the room. ...') *)

(** The methods every plain object inherits from [Object.prototype]. *)
Definition Object_prototype_methods : list string :=
  ["constructor"; "hasOwnProperty"; "isPrototypeOf"; "propertyIsEnumerable";
   "toLocaleString"; "toString"; "valueOf"; "__defineGetter__";
   "__defineSetter__"; "__lookupGetter__"; "__lookupSetter__"].

(** What [obj[key]] finds on a plain object with the own properties [m]:
    the own value, or else what the object inherits under that name:
    [Object.prototype] itself for '__proto__', a function for one of its
    methods, and [undefined] for any other name. *)
Inductive property :=
| POwn (e : entry)
| PObjectPrototype
| PMethod
| PUndefined.

Definition get_property (m : gmap string entry) (key : string) : property :=
  match m !! key with
  | Some e => POwn e
  | None =>
      if bool_decide (key = "__proto__") then PObjectPrototype
      else if bool_decide (key ∈ Object_prototype_methods) then PMethod
      else PUndefined
  end.

(** The fields of the instance these methods read or write, and the two
    [window] properties reported as agent.  [_peerInformations] holds the
    own properties of the object, which is created by the literal [{}];
    no code at hand writes to it, and its prototype is
    [Object.prototype]. *)
Record skylink := mkSkylink {
  _peerInformations : gmap string entry;
  _user : option user;
  _userData : jsval;
  _inRoom : bool;
  _room : option room_t;
  _mediaStreamsStatus : option streamStatus;
  _mediaScreen : bool;
  _screenSharingStreamSettings : option streamSettings;
  _streamSettings : option streamSettings;
  _selectedRoom : jsval;
  webrtcDetectedBrowser : string;
  webrtcDetectedVersion : Z
}.

Definition set_userData (d : jsval) (s : skylink) : skylink :=
  mkSkylink (_peerInformations s) (_user s) d (_inRoom s) (_room s)
    (_mediaStreamsStatus s) (_mediaScreen s) (_screenSharingStreamSettings s)
    (_streamSettings s) (_selectedRoom s) (webrtcDetectedBrowser s)
    (webrtcDetectedVersion s).

Abbreviation M := (eff skylink action).

Open Scope eff_scope.

(** Modelled from the spec: [clone] is not among the sources; the
    getters are "plain data plumbing", so it is taken to copy its argument,
    which leaves an immutable value as it is. *)
Definition clone {A} (x : A) : A := x.

(** [_parseUserData] *)
Definition _parseUserData (userData : jsval) : M unit :=
  modify (set_userData (js_or userData (JStr ""))).

(** What [getPeerInfo] answers: [null], the stored entry, the object
    built for self, or [Object.prototype]. *)
Inductive info :=
| InfoNull
| InfoStored (i : peerInfo)
| InfoSelf (i : peerInfo)
| InfoObjectPrototype.

(** [getPeerInfo]: the branch that builds the information of self. *)
Definition self_info : M peerInfo :=
  st <-- gets (λ s, default (mkMediaStatus JUndefined JUndefined)
                       (clone (_mediaStreamsStatus s))) ;;
  screen <-- gets _mediaScreen ;;
  ms <-- (if screen then
            sc <-- deref (λ s, clone (_screenSharingStreamSettings s)) ;;
            ss <-- deref _streamSettings ;;
            let sc1 := mkSettings (audio sc) (video sc) (clone (bandwidth ss)) in
            ret (if truthy (video sc1)
                 then mkSettings (audio sc1) (JObj [("screenshare", JBool true)])
                        (bandwidth sc1)
                 else sc1)
          else deref (λ s, clone (_streamSettings s))) ;;
  let st1 := if truthy (audio ms) then st
             else mkMediaStatus (JBool true) (videoMuted st) in
  let st2 := if truthy (video ms) then st1
             else mkMediaStatus (audioMuted st1) (JBool true) in
  s <-- gets (λ s, s) ;;
  ret (mkPeerInfo (js_or (clone (_userData s)) (JStr "")) (Some ms) st2
         (webrtcDetectedBrowser s) (webrtcDetectedVersion s)
         (clone (_selectedRoom s))).

(** [getPeerInfo] *)
Definition getPeerInfo (peerId : jsval) : M info :=
  s <-- gets (λ s, s) ;;
  let isNotSelf :=
    match _user s with
    | Some u =>
        match sid u with
        | Some i => if bool_decide (i = "") then false else differs peerId (Some i)
        | None => false
        end
    | None => false
    end in
  if is_string peerId && isNotSelf then
    match get_property (_peerInformations s) (to_key peerId) with
    | POwn (EInfo i) => ret (InfoStored i)
    | POwn ENull => ret InfoNull
    | PObjectPrototype => ret InfoObjectPrototype
    | POwn EOther | PMethod | PUndefined => ret InfoNull
    end
  else
    i <-- self_info ;;
    ret (InfoSelf i).

(** What [getUserData] answers: the [userData] property of the object
    found under the peer id, [null], or the user data of self. *)
Inductive data :=
| DataNull
| DataStored (v : jsval)
| DataSelf (v : jsval).

(** [getUserData] *)
Definition getUserData (peerId : jsval) : M data :=
  if truthy peerId then
    u <-- deref _user ;;
    if differs peerId (sid u) then
      s <-- gets (λ s, s) ;;
      match get_property (_peerInformations s) (to_key peerId) with
      | POwn (EInfo i) => ret (DataStored (userData i))
      | POwn ENull => raise "TypeError"
      | PObjectPrototype => ret (DataStored JUndefined)
          (* [Object.prototype] has no property [userData] *)
      | POwn EOther | PMethod | PUndefined => ret DataNull
      end
    else
      d <-- gets _userData ;; ret (DataSelf d)
  else
    d <-- gets _userData ;; ret (DataSelf d).

(** [setUserData] *)
Definition setUserData (userData : jsval) : M unit :=
  _parseUserData userData ;;;
  inRoom <-- gets _inRoom ;;
  if inRoom then
    tell (LogUpdated userData) ;;;
    u <-- deref _user ;;
    r <-- deref _room ;;
    d <-- gets _userData ;;
    tell (SendChannelMessage (mkChannelMessage UPDATE_USER (sid u) (room_id r) d)) ;;;
    u' <-- deref _user ;;
    i <-- getPeerInfo JUndefined ;;
    match i with
    | InfoSelf i | InfoStored i => tell (PeerUpdated (sid u') i true)
    | InfoNull | InfoObjectPrototype => ret tt
    end
  else
    tell WarnNotInRoom.

Definition is_update (a : action) : bool :=
  match a with
  | SendChannelMessage _ | PeerUpdated _ _ _ => true
  | _ => false
  end.

(** "For a string peerId that differs from self's session id and has no
    stored entry, getPeerInfo and getUserData return null." *)
Definition null_for_unknown (s : skylink) (peerId : string) : Prop :=
  (∀ u, _user s = Some u → sid u ≠ Some peerId) →
  _peerInformations s !! peerId = None →
  value_of (getPeerInfo (JStr peerId) s) = Ret InfoNull ∧
  value_of (getUserData (JStr peerId) s) = Ret DataNull.

Definition plain_settings : streamSettings :=
  mkSettings (JBool true) (JBool true) JUndefined.

(** Self before joining a room: no credentials yet. *)
Definition outside : skylink :=
  mkSkylink ∅ None (JStr "") false None None false None (Some plain_settings)
    JUndefined "chrome" 45.

(** Self in a room with session id "self-1" and one known peer. *)
Definition joined : skylink :=
  mkSkylink
    (<["peer-1" := EInfo (mkPeerInfo (JStr "bob") None
                            (mkMediaStatus (JBool false) (JBool false))
                            "firefox" 40 JUndefined)]> ∅)
    (Some (mkUser "user-1" (Some "self-1"))) (JStr "alice") true
    (Some (mkRoom "room-1")) None false None (Some plain_settings)
    (JStr "lobby") "chrome" 45.

Close Scope eff_scope.

End Skylink.

(** * Properties *)

(** ** SkylinkSocket *)

Module SocketFacts.
Import Socket.


Lemma handed_app l1 l2 : handed (l1 ++ l2) = handed l1 ++ handed l2.
Proof. apply omap_app. Qed.

Lemma sent_app l1 l2 : sent (l1 ++ l2) = sent l1 ++ sent l2.
Proof. apply omap_app. Qed.

Lemma attempts_app l1 l2 : attempts (l1 ++ l2) = attempts l1 ++ attempts l2.
Proof. apply omap_app. Qed.

Lemma terminal_errors_app l1 l2 :
  terminal_errors (l1 ++ l2) = (terminal_errors l1 + terminal_errors l2)%nat.
Proof. unfold terminal_errors. by rewrite List.filter_app, length_app. Qed.

(** The send callback hands its frame over exactly once, to the wire when
    a socket exists and is connected, to the warning log otherwise. *)
Lemma fn_handed f s : handed (out (fn f s)) = handed (out s) ++ [f].
Proof.
  unfold fn. destruct (_socket s); [destruct (connected s)|];
    simpl; by rewrite handed_app.
Qed.

Lemma fn_sent f s :
  sent (out (fn f s)) =
  sent (out s) ++ (if bool_decide (is_Some (_socket s)) && connected s then [f] else []).
Proof.
  unfold fn. destruct (_socket s) eqn:E; [destruct (connected s)|];
    simpl; rewrite sent_app; simpl; try done.
Qed.

Lemma set_queue_twice q1 q2 s : set_queue q2 (set_queue q1 s) = set_queue q2 s.
Proof. reflexivity. Qed.


Lemma send_immediate now m s :
  (∀ e, elapsed now s = Some e → interval ≤ e) ∨ must_queue m = false →
  send now m s = set_timestamp now (fn (Single m) s).
Proof.
  intros H. unfold send, _limitMessageInterval.
  destruct (elapsed now s) as [e|]; [|done].
  destruct H as [H|H].
  - specialize (H e eq_refl).
    destruct (Z.ltb_spec e interval); [lia|]. reflexivity.
  - rewrite H, andb_false_r. reflexivity.
Qed.

(** [send] either queues the message or hands it over at once. *)
Lemma send_either now m s :
  (∃ e, send now m s =
          let s1 := set_queue (queue (_messaging s) ++ [m]) s in
          match timer (_messaging s) with
          | None => setTimeout now (interval - e) s1
          | Some _ => s1
          end) ∨
  send now m s = set_timestamp now (fn (Single m) s).
Proof.
  unfold send, _limitMessageInterval.
  destruct (elapsed now s) as [e|]; [|by right].
  destruct (_ && _); [left; by exists e|by right].
Qed.






Lemma fn_fields f s :
  queue (_messaging (fn f s)) = queue (_messaging s) ∧
  timestamp (_messaging (fn f s)) = timestamp (_messaging s) ∧
  timer (_messaging (fn f s)) = timer (_messaging s) ∧
  armed (fn f s) = armed s ∧ timers_made (fn f s) = timers_made s ∧
  _socket (fn f s) = _socket s ∧ connected (fn f s) = connected s.
Proof.
  unfold fn. destruct (_socket s) eqn:E; [destruct (connected s) eqn:E2|];
    simpl; rewrite ?E, ?E2; done.
Qed.

Lemma timer_fires_due id now due s :
  armed s = [(id, due)] → due ≤ now →
  timer_fires id now s = delayFn now (set_armed [] s).
Proof.
  intros Ha Hd. unfold timer_fires. rewrite Ha. simpl.
  rewrite Nat.eqb_refl. destruct (Z.leb_spec due now); [|lia]. simpl.
  rewrite filter_cons_False by (simpl; intros ?; done). reflexivity.
Qed.





(** *** Reconnection *)

Lemma indexOf_from_lookup ps : ∀ o i p,
  NoDup ps → ps !! i = Some p →
  indexOf_from o ps (PortNum p) = o + Z.of_nat i.
Proof.
  induction ps as [|y ps IH]; intros o i p Hnd Hi; [done|].
  inversion Hnd as [|? ? Hy Hnd']; subst. destruct i as [|i]; simpl in *.
  - injection Hi as ->. rewrite Z.eqb_refl. lia.
  - destruct (Z.eqb_spec y p) as [->|Hne].
    + exfalso. apply Hy. by eapply list_elem_of_lookup_2.
    + rewrite (IH (o + 1) i p Hnd' Hi). lia.
Qed.

Lemma indexOf_lookup ps i p :
  NoDup ps → ps !! i = Some p → indexOf ps (PortNum p) = Z.of_nat i.
Proof. intros. unfold indexOf. by rewrite (indexOf_from_lookup ps 0 i p). Qed.

Lemma port_at_lookup ps i p :
  ps !! i = Some p → port_at ps (Z.of_nat i) = PortNum p.
Proof.
  intros Hi. unfold port_at. rewrite Nat2Z.id, Hi.
  destruct (Z.leb_spec 0 (Z.of_nat i)); [done|lia].
Qed.

Lemma connect_at ps p t s :
  ports_of (ports s) (protocol s) = ps →
  port (_connection s) = PortNum p → p ≠ 0 →
  transport (_connection s) = t →
  at_port ps p t (connect s) ∧
  attempts (out (connect s)) = attempts (out s) ++ [(PortNum p, t)] ∧
  terminal_errors (out (connect s)) = terminal_errors (out s).
Proof.
  intros Hps Hp Hne Ht. unfold connect. rewrite Hp.
  assert (Hc : match p with
               | 0 => with_port match ports_of (ports s) (protocol s) with
                                | [] => PortUndefined
                                | p0 :: _ => PortNum p0
                                end (_connection s)
               | _ => _connection s
               end = _connection s) by (by destruct p).
  rewrite Hc. unfold _listenToEvents. simpl.
  rewrite attempts_app, terminal_errors_app. simpl. rewrite Hp, Ht.
  split; [|split; [done|unfold terminal_errors; simpl; lia]].
  unfold at_port. simpl. repeat split; try done.
  eexists. split; [done|]. apply list_elem_of_here.
Qed.

Lemma retry_at ps p t index s :
  ports_of (ports s) (protocol s) = ps →
  port (_connection s) = PortNum p → p ≠ 0 →
  transport (_connection s) = t →
  at_port ps p t (retry index s) ∧
  attempts (out (retry index s)) = attempts (out s) ++ [(PortNum p, t)] ∧
  terminal_errors (out (retry index s)) = terminal_errors (out s).
Proof.
  intros Hps Hp Hne Ht. unfold retry.
  destruct (connect_at ps p t
    (emit (Trigger (connectRetry (fallbackType_of index s)
                      (retries_current (_connection s)))) s)) as (A & B & C);
    try done.
  split; [done|]. rewrite B, C. simpl.
  rewrite attempts_app, terminal_errors_app. unfold terminal_errors. simpl.
  rewrite app_nil_r. split; [done|lia].
Qed.

Section Campaign.
Variable ps : list Z.
Hypothesis ps_distinct : NoDup ps.
Hypothesis ps_nonzero : 0 ∉ ps.

Lemma lookup_nonzero i p : ps !! i = Some p → p ≠ 0.
Proof. intros Hi ->. apply ps_nonzero. by eapply list_elem_of_lookup_2. Qed.

(** A failure before the last port moves to the next port, same kind. *)
Lemma fails_advance i p p' t s :
  at_port ps p t s → ps !! i = Some p → ps !! S i = Some p' →
  at_port ps p' t (current_fails s) ∧
  attempts (out (current_fails s)) = attempts (out s) ++ [(PortNum p', t)] ∧
  terminal_errors (out (current_fails s)) = terminal_errors (out s).
Proof.
  intros (Hps & Hp & Ht & Hd & Hc & id & Hid & Hl) Hi Hi'.
  unfold current_fails, on_io. rewrite Hid, bool_decide_eq_true_2 by done.
  unfold handler, _reconnect. simpl. rewrite Hid.
  unfold disconnect. simpl. rewrite Hid. simpl.
  rewrite Hps, Hp, (indexOf_lookup ps i p) by done.
  destruct (Z.eqb_spec (Z.of_nat i) (-1)); [lia|].
  apply lookup_lt_Some in Hi' as Hlt.
  destruct (Z.ltb_spec (Z.of_nat i) (Z.of_nat (length ps) - 1)); [|lia].
  replace (Z.of_nat i + 1) with (Z.of_nat (S i)) by lia.
  rewrite (port_at_lookup ps (S i) p') by done.
  match goal with |- context [retry ?ix ?st] =>
    destruct (retry_at ps p' t ix st) as (A & B & C) end;
    try done; [by eapply lookup_nonzero|].
  split; [done|]. rewrite B, C. simpl.
  rewrite !attempts_app, !terminal_errors_app. unfold terminal_errors. simpl.
  rewrite !app_nil_r. split; [done|lia].
Qed.

(** A failure on the last port under WebSocket restarts at the first
    port under Polling. *)
Lemma fails_switch i p p0 s :
  at_port ps p WebSocket s → ps !! i = Some p → S i = length ps →
  ps !! 0%nat = Some p0 →
  at_port ps p0 Polling (current_fails s) ∧
  attempts (out (current_fails s)) = attempts (out s) ++ [(PortNum p0, Polling)] ∧
  terminal_errors (out (current_fails s)) = terminal_errors (out s).
Proof.
  intros (Hps & Hp & Ht & Hd & Hc & id & Hid & Hl) Hi Hlast H0.
  unfold current_fails, on_io. rewrite Hid, bool_decide_eq_true_2 by done.
  unfold handler, _reconnect. simpl. rewrite Hid.
  unfold disconnect. simpl. rewrite Hid. simpl.
  rewrite Hps, Hp, Ht, (indexOf_lookup ps i p) by done.
  destruct (Z.eqb_spec (Z.of_nat i) (-1)); [lia|].
  destruct (Z.ltb_spec (Z.of_nat i) (Z.of_nat (length ps) - 1)); [lia|].
  change 0 with (Z.of_nat 0). rewrite (port_at_lookup ps 0 p0) by done.
  match goal with |- context [retry ?ix ?st] =>
    destruct (retry_at ps p0 Polling ix st) as (A & B & C) end;
    try done; [by eapply lookup_nonzero|].
  split; [done|]. rewrite B, C. simpl.
  rewrite !attempts_app, !terminal_errors_app. unfold terminal_errors. simpl.
  rewrite !app_nil_r. split; [done|lia].
Qed.

(** A failure on the last port under Polling ends the campaign. *)
Lemma fails_abort i p s :
  at_port ps p Polling s → ps !! i = Some p → S i = length ps →
  given_up (current_fails s) ∧
  attempts (out (current_fails s)) = attempts (out s) ∧
  terminal_errors (out (current_fails s)) = S (terminal_errors (out s)).
Proof.
  intros (Hps & Hp & Ht & Hd & Hc & id & Hid & Hl) Hi Hlast.
  unfold current_fails, on_io. rewrite Hid, bool_decide_eq_true_2 by done.
  unfold handler, _reconnect. simpl. rewrite Hid.
  unfold disconnect. simpl. rewrite Hid. simpl.
  rewrite Hps, Hp, Ht, (indexOf_lookup ps i p) by done.
  destruct (Z.eqb_spec (Z.of_nat i) (-1)); [lia|].
  destruct (Z.ltb_spec (Z.of_nat i) (Z.of_nat (length ps) - 1)); [lia|].
  unfold given_up. simpl. rewrite Hid, Hc, !attempts_app, !terminal_errors_app.
  unfold terminal_errors. simpl.
  rewrite !app_nil_r. repeat split; try done; [|lia].
  exists id. split; [done|]. intros Hin%list_elem_of_filter. by destruct Hin.
Qed.

Lemma given_up_stays s : given_up s → current_fails s = s.
Proof.
  intros (_ & _ & id & Hid & Hn). unfold current_fails, on_io.
  by rewrite Hid, bool_decide_eq_false_2.
Qed.


Lemma plan_lookup_primary n p :
  ps !! n = Some p → plan ps !! n = Some (PortNum p, WebSocket).
Proof.
  intros Hn. unfold plan. rewrite lookup_app_l.
  - by rewrite list_lookup_fmap, Hn.
  - rewrite length_map. by eapply lookup_lt_Some.
Qed.

Lemma plan_lookup_fallback n p :
  ps !! n = Some p → plan ps !! (length ps + n)%nat = Some (PortNum p, Polling).
Proof.
  intros Hn. unfold plan. rewrite lookup_app_r; rewrite length_map; [|lia].
  replace (length ps + n - length ps)%nat with n by lia.
  by rewrite list_lookup_fmap, Hn.
Qed.

Lemma plan_length : length (plan ps) = (2 * length ps)%nat.
Proof. unfold plan. rewrite length_app, !length_map. lia. Qed.

Lemma plan_NoDup : NoDup (plan ps).
Proof.
  assert (Inj (=) (=) (λ p : Z, (PortNum p, WebSocket))) by (intros ? ? ?; congruence).
  assert (Inj (=) (=) (λ p : Z, (PortNum p, Polling))) by (intros ? ? ?; congruence).
  unfold plan. apply NoDup_app. split; [|split].
  - by apply (NoDup_fmap_2 (λ p, (PortNum p, WebSocket))).
  - intros [? ?] (p & Hp & _)%list_elem_of_fmap (q & Hq & _)%list_elem_of_fmap.
    congruence.
  - by apply (NoDup_fmap_2 (λ p, (PortNum p, Polling))).
Qed.

Variable s0 : state.
Hypothesis s0_websocket : hasWebSocket s0 = true.
Hypothesis s0_ports : ports_of (ports s0) (protocol s0) = ps.

Lemma cursor_plan n p t : cursor ps n p t → plan ps !! n = Some (PortNum p, t).
Proof.
  intros [(Hn & -> & Hp)|(Hn & -> & Hp)].
  - by apply plan_lookup_primary.
  - replace n with (length ps + (n - length ps))%nat at 1 by lia.
    by apply plan_lookup_fallback.
Qed.

Lemma campaign_running n :
  (n < 2 * length ps)%nat →
  ∃ p t, cursor ps n p t ∧ at_port ps p t (after_failures s0 n) ∧
    attempts (out (after_failures s0 n)) = attempts (out s0) ++ take (S n) (plan ps) ∧
    terminal_errors (out (after_failures s0 n)) = terminal_errors (out s0).
Proof.
  induction n as [|n IH]; intros Hn.
  - destruct (lookup_lt_is_Some_2 ps 0) as [p0 H0]; [lia|].
    assert (∃ ps', ps = p0 :: ps') as [ps' Eps].
    { clear -H0. destruct ps; [done|]. injection H0 as ->. eauto. }
    exists p0, WebSocket. split.
    { left. split; [lia|done]. }
    change (after_failures s0 0%nat) with (connect (reset s0)).
    assert (Hr : port (_connection (reset s0)) = PortNum 0 ∧
                 transport (_connection (reset s0)) = WebSocket ∧
                 ports (reset s0) = ports s0 ∧
                 protocol (reset s0) = protocol s0 ∧ out (reset s0) = out s0).
    { unfold reset. by rewrite s0_websocket. }
    destruct Hr as (R1 & R2 & R3 & R4 & R5).
    set (r := reset s0) in *. clearbody r.
    assert (Hc : ∃ c, connect r = connect (set_connection c r) ∧
                   port c = PortNum p0 ∧ transport c = WebSocket).
    { exists (with_port (PortNum p0) (_connection r)). split; [|by rewrite <- R2].
      unfold connect. simpl. rewrite R1, R3, R4, s0_ports, Eps. simpl.
      by destruct p0. }
    destruct Hc as (c & -> & C1 & C2).
    destruct (connect_at ps p0 WebSocket (set_connection c r)) as (A & B & C);
      [simpl; by rewrite R3, R4|done|by eapply lookup_nonzero|done|].
    split; [done|]. rewrite B, C. simpl. rewrite R5.
    split; [|done]. by rewrite (take_S_r _ _ _ (plan_lookup_primary _ _ H0)).
  - destruct IH as (p & t & Hcur & Hat & Hatt & Hterm); [lia|].
    change (after_failures s0 (S n)) with (current_fails (after_failures s0 n)).
    assert (Hstep : ∃ p' t', cursor ps (S n) p' t' ∧
              at_port ps p' t' (current_fails (after_failures s0 n)) ∧
              attempts (out (current_fails (after_failures s0 n))) =
                attempts (out (after_failures s0 n)) ++ [(PortNum p', t')] ∧
              terminal_errors (out (current_fails (after_failures s0 n))) =
                terminal_errors (out (after_failures s0 n))).
    { destruct Hcur as [(Hlt & -> & Hp)|(Hge & -> & Hp)].
      - destruct (decide (S n < length ps)%nat) as [Hlt'|Hlast].
        + destruct (lookup_lt_is_Some_2 ps (S n) Hlt') as [p' Hp'].
          exists p', WebSocket. split; [left; done|].
          by apply (fails_advance n p p').
        + destruct (lookup_lt_is_Some_2 ps 0) as [p0 Hp0]; [lia|].
          exists p0, Polling. split.
          { right. split; [lia|]. split; [done|].
            by replace (S n - length ps)%nat with 0%nat by lia. }
          apply (fails_switch n p p0); try done. lia.
      - assert (Hlt' : (S (n - length ps) < length ps)%nat) by lia.
        destruct (lookup_lt_is_Some_2 ps _ Hlt') as [p' Hp'].
        exists p', Polling. split.
        { right. split; [lia|]. split; [done|].
          by replace (S n - length ps)%nat with (S (n - length ps)) by lia. }
        by apply (fails_advance (n - length ps) p p'). }
    destruct Hstep as (p' & t' & Hcur' & Hat' & Hatt' & Hterm').
    exists p', t'. split; [done|]. split; [done|].
    rewrite Hatt', Hterm', Hatt, Hterm. split; [|done].
    rewrite <- app_assoc. f_equal.
    by rewrite (take_S_r _ (S n) _ (cursor_plan _ _ _ Hcur')).
Qed.

Lemma campaign_over n :
  (0 < length ps)%nat → (2 * length ps ≤ n)%nat →
  given_up (after_failures s0 n) ∧
  attempts (out (after_failures s0 n)) = attempts (out s0) ++ plan ps ∧
  terminal_errors (out (after_failures s0 n)) = S (terminal_errors (out s0)).
Proof.
  intros Hk Hn. induction n as [|n IH]; [lia|].
  change (after_failures s0 (S n)) with (current_fails (after_failures s0 n)).
  destruct (decide (2 * length ps ≤ n)%nat) as [Hle|Hlt].
  - destruct (IH Hle) as (G & A & T). by rewrite (given_up_stays _ G).
  - destruct (campaign_running n) as (p & t & Hcur & Hat & Hatt & Hterm); [lia|].
    destruct Hcur as [(Hlt' & _)|(Hge & -> & Hp)]; [lia|].
    destruct (fails_abort (n - length ps) p (after_failures s0 n)) as (G & A & T);
      try done; [lia|].
    split; [done|]. rewrite A, T, Hatt, Hterm. split; [|done].
    f_equal. apply take_ge. rewrite plan_length. lia.
Qed.

End Campaign.

Lemma fn_log f s :
  attempts (out (fn f s)) = attempts (out s) ∧
  _messaging (fn f s) = _messaging s ∧ armed (fn f s) = armed s ∧
  dead (fn f s) = dead s ∧ timers_made (fn f s) = timers_made s.
Proof.
  unfold fn. destruct (_socket s); [destruct (connected s)|];
    simpl; by rewrite attempts_app, app_nil_r.
Qed.

Lemma delayFn_log now s :
  attempts (out (delayFn now s)) = attempts (out s) ∧
  dead (delayFn now s) = dead s.
Proof.
  unfold delayFn. destruct (queue (_messaging s)) as [|data rest]; [done|].
  destruct (_ <? _)%nat; simpl;
    match goal with |- context [fn ?f ?st] =>
      destruct (fn_log f st) as (A & _ & _ & D & _) end;
    by rewrite A, D.
Qed.

Lemma send_log now m s :
  attempts (out (send now m s)) = attempts (out s) ∧
  dead (send now m s) = dead s.
Proof.
  destruct (send_either now m s) as [[e ->]| ->].
  - simpl. by destruct (timer (_messaging s)).
  - simpl. destruct (fn_log (Single m) s) as (A & _ & _ & D & _). by rewrite A, D.
Qed.

Lemma connect_clears s : dead (connect s) = false ∧ connected (connect s) = false.
Proof. done. Qed.

Lemma connect_attempts s :
  length (attempts (out (connect s))) = S (length (attempts (out s))).
Proof.
  unfold connect. simpl. rewrite attempts_app, length_app. simpl. lia.
Qed.

Lemma retry_clears index s : dead (retry index s) = false.
Proof. done. Qed.

(** [_reconnect] either connects again, which clears the flag, or gives
    up without a connection attempt. *)
Lemma reconnect_log s :
  dead (_reconnect s) = true →
  attempts (out (_reconnect s)) = attempts (out s).
Proof.
  unfold _reconnect.
  set (s1 := match _socket s with Some id => _ | None => s end).
  assert (Hs1 : attempts (out s1) = attempts (out s)).
  { unfold s1. destruct (_socket s) eqn:E; [|done].
    unfold disconnect. simpl. rewrite E. simpl.
    by rewrite attempts_app, app_nil_r. }
  clearbody s1.
  destruct (_ =? -1); [by rewrite retry_clears|].
  destruct (_ <? _); [by rewrite retry_clears|].
  destruct (transport (_connection s1)); [by rewrite retry_clears|].
  intros _. simpl. by rewrite attempts_app, app_nil_r.
Qed.

Lemma handler_log e s :
  dead (handler e s) = true →
  attempts (out (handler e s)) = attempts (out s).
Proof.
  destruct e; simpl; try done;
    try (intros _; by rewrite attempts_app, app_nil_r).
  - destruct (_ =? 0); simpl; [|done]. intros _. by rewrite attempts_app, app_nil_r.
  - intros Hd. rewrite (reconnect_log _ Hd). simpl.
    by rewrite attempts_app, app_nil_r.
Qed.


(** C2 (as amended): with WebSocket available and a list of k distinct
    non-zero ports for the protocol in use, which serves both transport
    kinds, a campaign of consecutive failures tries every port under
    WebSocket in list order, switches to Polling at the first port on the
    k-th failure, tries every port again, and on failure number 2k sets
    [dead], publishes [connectError(-3)] once and connects no more; no
    (port, kind) pair is tried twice. *)
Theorem exhaustion_order (s0 : state) (ps : list Z) (p0 : Z) :
  hasWebSocket s0 = true →
  ports_of (ports s0) (protocol s0) = ps →
  NoDup ps → 0 ∉ ps → ps !! 0%nat = Some p0 →
  let k := length ps in
  (∀ n, (n < 2 * k)%nat →
     dead (after_failures s0 n) = false ∧
     attempts (out (after_failures s0 n)) =
       attempts (out s0) ++ take (S n) (plan ps) ∧
     terminal_errors (out (after_failures s0 n)) = terminal_errors (out s0)) ∧
  (transport (_connection (after_failures s0 k)) = Polling ∧
   port (_connection (after_failures s0 k)) = PortNum p0) ∧
  (∀ n, (2 * k ≤ n)%nat →
     dead (after_failures s0 n) = true ∧
     connected (after_failures s0 n) = false ∧
     attempts (out (after_failures s0 n)) = attempts (out s0) ++ plan ps ∧
     terminal_errors (out (after_failures s0 n)) = S (terminal_errors (out s0))) ∧
  NoDup (plan ps) ∧ length (plan ps) = (2 * k)%nat.
Proof.
  intros Hws Hps Hnd Hnz H0 k.
  assert (Hk : (0 < k)%nat) by (unfold k; by eapply lookup_lt_Some).
  split; [|split; [|split; [|split]]].
  - intros n Hn.
    destruct (campaign_running ps Hnd Hnz s0 Hws Hps n Hn)
      as (p & t & _ & Hat & Hatt & Hterm).
    destruct Hat as (_ & _ & _ & Hd & _). done.
  - destruct (campaign_running ps Hnd Hnz s0 Hws Hps k)
      as (p & t & Hcur & Hat & _); [lia|].
    destruct Hat as (_ & Hp & Ht & _).
    destruct Hcur as [(Hlt & _)|(_ & -> & Hl)]; [unfold k in Hlt; lia|].
    fold k in Hl. rewrite Nat.sub_diag, H0 in Hl. injection Hl as <-. done.
  - intros n Hn.
    destruct (campaign_over ps Hnd Hnz s0 Hws Hps n Hk Hn) as (G & A & T).
    destruct G as (Hd & Hc & _). done.
  - by apply plan_NoDup.
  - apply plan_length.
Qed.

Lemma exhaustion_order_witness :
  dead (after_failures (fresh signaling_server defaults_ports Https true) 4) = true ∧
  attempts (out (after_failures (fresh signaling_server defaults_ports Https true) 4)) =
    [(PortNum 443, WebSocket); (PortNum 3443, WebSocket);
     (PortNum 443, Polling); (PortNum 3443, Polling)].
Proof.
  destruct (exhaustion_order (fresh signaling_server defaults_ports Https true)
              [443; 3443] 443) as (_ & _ & H & _).
  - reflexivity.
  - reflexivity.
  - apply (bool_decide_unpack _). vm_compute. exact I.
  - apply (bool_decide_unpack _). vm_compute. exact I.
  - reflexivity.
  - destruct (H 4%nat) as (Hd & _ & Ha & _); [simpl; lia|].
    split; [exact Hd|exact Ha].
Defined.

(** C2, counterexample: a port list naming port 80 twice is never
    exhausted, and without WebSocket support the campaign is over after
    the k ports under Polling. *)
Lemma exhaustion_order_counterexample :
  ¬ exhausted_as_planned twice_80 ∧ ¬ exhausted_as_planned polling_only.
Proof. split; intros [Hd Ha]; vm_compute in Hd, Ha; discriminate. Qed.


(** *** The flag [dead] *)

Lemma send_ignores_dead now m d s :
  out (send now m (set_flags (connected s) d s)) = out (send now m s).
Proof.
  unfold send, _limitMessageInterval, elapsed. simpl.
  assert (D : out (set_timestamp now (fn (Single m) (set_flags (connected s) d s))) =
              out (set_timestamp now (fn (Single m) s))).
  { unfold fn. simpl. destruct (_socket s); [destruct (connected s)|]; done. }
  destruct (match Date_now now with TsNumber _ => _ | _ => None end) as [e|];
    [|exact D].
  destruct (_ && _); [|exact D].
  by destruct (timer (_messaging s)).
Qed.

Lemma send_unconnected now m s :
  connected s = false → sent (out (send now m s)) = sent (out s).
Proof.
  intros Hc. destruct (send_either now m s) as [[e ->]| ->].
  - simpl. by destruct (timer (_messaging s)).
  - simpl. rewrite fn_sent, Hc, andb_false_r. by rewrite app_nil_r.
Qed.

Lemma step_log s i :
  dead (step s i) = true → i ≠ call_connect →
  attempts (out (step s i)) = attempts (out s).
Proof.
  destruct i as [| | |now m|id now|id e]; simpl; intros Hd Hi; try done.
  - unfold disconnect. destruct (_socket s); [|done].
    simpl. by rewrite attempts_app, app_nil_r.
  - apply send_log.
  - unfold timer_fires in *. destruct (existsb _ _); [|done].
    by destruct (delayFn_log now
      (set_armed (filter (λ t, fst t ≠ id) (armed s)) s)) as (-> & _).
  - unfold on_io in *. destruct (bool_decide _); [|done]. by apply handler_log.
Qed.

(** C1 (as amended): [connect] always clears [dead], and [connected], and
    issues a connection attempt, also on a dead transport; what does hold
    is that no step that leaves [dead] true issues a connection attempt.
    [send] does not read [dead]; nothing reaches the wire while
    [connected] is false. *)
Theorem dead_until_connect (s : state) (i : input) (now : Z) (m : message) :
  dead s = true →
  (dead (connect s) = false ∧ connected (connect s) = false ∧
   length (attempts (out (connect s))) = S (length (attempts (out s)))) ∧
  (dead (step s i) = true → attempts (out (step s i)) = attempts (out s)) ∧
  out (send now m s) = out (send now m (set_flags (connected s) false s)) ∧
  (connected s = false → sent (out (send now m s)) = sent (out s)).
Proof.
  intros Hdead. split; [|split; [|split]].
  - split; [done|]. split; [done|]. apply connect_attempts.
  - intros Hd. apply step_log; [done|]. intros ->. simpl in Hd. done.
  - symmetry. apply send_ignores_dead.
  - apply send_unconnected.
Qed.

Lemma dead_until_connect_witness :
  dead (connect worn_out) = false ∧
  attempts (out (step worn_out (socket_reports 4 io_reconnect_failed))) =
    attempts (out worn_out) ∧
  sent (out (send 9000 late worn_out)) = sent (out worn_out).
Proof.
  destruct (dead_until_connect worn_out (socket_reports 4 io_reconnect_failed)
              9000 late) as ((H1 & _) & H2 & _ & H3).
  - vm_compute. reflexivity.
  - split; [exact H1|]. split.
    + apply H2. vm_compute. reflexivity.
    + apply H3. vm_compute. reflexivity.
Defined.

(** C1, counterexample: on the transport that has run out of ports,
    [connect] clears [dead] and issues a fifth connection attempt. *)
Lemma dead_until_connect_counterexample : ¬ dead_is_terminal worn_out.
Proof.
  intros H. destruct H as [Hd _]; [vm_compute; reflexivity|].
  vm_compute in Hd. discriminate.
Qed.

(** *** A stale timer handle *)

Lemma connect_quiet s :
  _messaging (connect s) = _messaging s ∧ armed (connect s) = armed s ∧
  handed (out (connect s)) = handed (out s).
Proof.
  unfold connect. simpl. by rewrite handed_app, app_nil_r.
Qed.

Lemma retry_quiet index s :
  _messaging (retry index s) = _messaging s ∧ armed (retry index s) = armed s ∧
  handed (out (retry index s)) = handed (out s).
Proof.
  unfold retry.
  match goal with |- context [connect ?st] =>
    destruct (connect_quiet st) as (-> & -> & ->) end.
  simpl. by rewrite handed_app, app_nil_r.
Qed.

Lemma reconnect_quiet s :
  _messaging (_reconnect s) = _messaging s ∧ armed (_reconnect s) = armed s ∧
  handed (out (_reconnect s)) = handed (out s).
Proof.
  unfold _reconnect.
  set (s1 := match _socket s with Some id => _ | None => s end).
  assert (Hs1 : _messaging s1 = _messaging s ∧ armed s1 = armed s ∧
                handed (out s1) = handed (out s)).
  { unfold s1. destruct (_socket s) eqn:E; [|done].
    unfold disconnect. simpl. rewrite E. simpl.
    by rewrite handed_app, app_nil_r. }
  destruct Hs1 as (M1 & A1 & H1). clearbody s1.
  destruct (_ =? -1).
  { match goal with |- context [retry ?ix ?st] =>
      destruct (retry_quiet ix st) as (-> & -> & ->) end. done. }
  destruct (_ <? _).
  { match goal with |- context [retry ?ix ?st] =>
      destruct (retry_quiet ix st) as (-> & -> & ->) end. done. }
  destruct (transport (_connection s1)).
  { match goal with |- context [retry ?ix ?st] =>
      destruct (retry_quiet ix st) as (-> & -> & ->) end. done. }
  simpl. by rewrite handed_app, app_nil_r.
Qed.

Lemma handler_quiet e s :
  _messaging (handler e s) = _messaging s ∧ armed (handler e s) = armed s ∧
  handed (out (handler e s)) = handed (out s).
Proof.
  destruct e; simpl; try done; try (by rewrite handed_app, app_nil_r).
  - destruct (_ =? 0); simpl; [|done]. by rewrite handed_app, app_nil_r.
  - match goal with |- context [_reconnect ?st] =>
      destruct (reconnect_quiet st) as (-> & -> & ->) end.
    simpl. by rewrite handed_app, app_nil_r.
Qed.

(** With a handle left in [_messaging.timer] and no timeout pending,
    nothing ever drains the queue: a step can only append to it, and what
    it hands to the send callback is the submitted message itself. *)
Lemma stale_timer_step s i :
  armed s = [] → is_Some (timer (_messaging s)) →
  armed (step s i) = [] ∧ is_Some (timer (_messaging (step s i))) ∧
  ∃ q singles,
    queue (_messaging (step s i)) = queue (_messaging s) ++ q ∧
    handed (out (step s i)) = handed (out s) ++ map Single singles.
Proof.
  intros Ha [id Ht].
  assert (Hq : ∀ s', _messaging s' = _messaging s → armed s' = armed s →
                 handed (out s') = handed (out s) →
                 armed s' = [] ∧ is_Some (timer (_messaging s')) ∧
                 ∃ q singles,
                   queue (_messaging s') = queue (_messaging s) ++ q ∧
                   handed (out s') = handed (out s) ++ map Single singles).
  { intros s' -> -> ->. split; [done|]. split; [by eauto|].
    exists [], []. by rewrite !app_nil_r. }
  destruct i as [| | |now m|tid now|sid e]; unfold step.
  - apply Hq; apply connect_quiet.
  - apply Hq; unfold disconnect; destruct (_socket s); try done.
    simpl. by rewrite handed_app, app_nil_r.
  - by apply Hq.
  - destruct (send_either now m s) as [[e0 ->]| ->].
    + simpl. rewrite Ht. simpl. split; [done|]. rewrite Ht.
      split; [by eauto|]. exists [m], []. by rewrite app_nil_r.
    + simpl. rewrite fn_handed.
      destruct (fn_log (Single m) s) as (_ & -> & -> & _).
      split; [done|]. split; [by eauto|]. exists [], [m]. by rewrite app_nil_r.
  - unfold timer_fires. rewrite Ha. simpl. by apply Hq.
  - unfold on_io. destruct (bool_decide _); [|by apply Hq].
    apply Hq; apply handler_quiet.
Qed.

Lemma stale_timer_run l : ∀ s,
  armed s = [] → is_Some (timer (_messaging s)) →
  armed (run s l) = [] ∧
  ∃ q singles,
    queue (_messaging (run s l)) = queue (_messaging s) ++ q ∧
    handed (out (run s l)) = handed (out s) ++ map Single singles.
Proof.
  induction l as [|i l IH]; intros s Ha Ht.
  - split; [done|]. exists [], []. by rewrite !app_nil_r.
  - destruct (stale_timer_step s i Ha Ht) as (Ha' & Ht' & q1 & o1 & Hq1 & Ho1).
    destruct (IH (step s i) Ha' Ht') as (Ha2 & q2 & o2 & Hq2 & Ho2).
    change (run s (i :: l)) with (run (step s i) l).
    split; [done|]. exists (q1 ++ q2), (o1 ++ o2).
    rewrite Hq2, Ho2, Hq1, Ho1, map_app, <- !app_assoc. done.
Qed.

(** C4, at the failing input: after sixteen queued messages have been drained in one
    envelope, the message [late] is queued on a connected transport with
    no timeout pending; it has not been handed to the send callback, and
    whatever happens next it stays at the head of the queue while only
    directly submitted messages are handed over. *)
Theorem queued_message_starves :
  connected starved = true ∧
  queue (_messaging starved) = [late] ∧
  armed starved = [] ∧
  Forall (λ f, ¬ carries late f) (handed (out starved)) ∧
  ∀ more : list input, ∃ q singles,
    queue (_messaging (run starved more)) = late :: q ∧
    armed (run starved more) = [] ∧
    handed (out (run starved more)) = handed (out starved) ++ map Single singles.
Proof.
  assert (E : connected starved = true ∧ queue (_messaging starved) = [late] ∧
              armed starved = [] ∧ timer (_messaging starved) = Some 2%nat)
    by (vm_compute; done).
  assert (F : Forall (λ f, ¬ carries late f) (handed (out starved)))
    by (apply (bool_decide_unpack _); cbv; exact I).
  revert E F. generalize starved. intros s (E1 & E2 & E3 & E4) F.
  split; [exact E1|]. split; [exact E2|]. split; [exact E3|]. split; [exact F|].
  intros more.
  destruct (stale_timer_run more s E3) as (Ha & q & o & Hq & Ho);
    [rewrite E4; eauto|].
  exists q, o. rewrite Hq, E2. split; [reflexivity|]. split; [exact Ha|exact Ho].
Qed.

End SocketFacts.

(** ** Peer *)

Module PeerFacts.
Import Eff Peer.

(** Splitting on CRLF and joining with CRLF gives the text back. *)
Lemma split_crlf_nonempty s : split_crlf s ≠ [].
Proof.
  destruct s as [|c s]; [done|]. simpl.
  destruct (Ascii.eqb c "013"); [destruct s as [|c' s'']|]; try done.
  - destruct (Ascii.eqb c' "010"); [done|]. by destruct (split_crlf _).
  - by destruct (split_crlf s).
Qed.

Lemma join_crlf_cons c l ls :
  join_crlf (String c l :: ls) = String c (join_crlf (l :: ls)).
Proof. by destruct ls. Qed.

Lemma join_split_crlf s : join_crlf (split_crlf s) = s.
Proof.
  assert (H : ∀ n s, (String.length s < n)%nat → join_crlf (split_crlf s) = s).
  { clear s. induction n as [|n IH]; intros s Hn; [lia|].
    destruct s as [|c s]; [done|]. simpl in Hn.
    assert (Hplain : join_crlf match split_crlf s with
                               | l :: ls => String c l :: ls
                               | [] => [String c EmptyString]
                               end = String c s).
    { pose proof (split_crlf_nonempty s) as Hne.
      destruct (split_crlf s) as [|l ls] eqn:E; [done|].
      rewrite join_crlf_cons, <- E, IH by lia. done. }
    cbn [split_crlf].
    destruct (Ascii.eqb_spec c "013") as [->|Hc].
    - destruct s as [|c' s']; [done|].
      destruct (Ascii.eqb_spec c' "010") as [->|Hc'].
      + cbn [join_crlf]. pose proof (split_crlf_nonempty s') as Hne.
        destruct (split_crlf s') as [|l ls] eqn:E; [done|].
        rewrite <- E. change (join_crlf ("" :: split_crlf s'))
          with (match split_crlf s' with [] => "" | _ => "" +:+ crlf +:+ join_crlf (split_crlf s') end).
        rewrite E. rewrite <- E, IH by (simpl in Hn; lia). done.
      + exact Hplain.
    - destruct s; exact Hplain. }
  apply (H (S (String.length s))). lia.
Qed.


Section WithSDP.
Context `{SDP}.

(** C5 (as amended): when the primitive rejects offer or answer
    generation, or the application of a local or remote description, the
    session calls the primitive once, reports the error to the listener
    with the error as payload, and changes nothing of the session:
    [readyState] keeps its value and nothing is retried. *)
Theorem failures_are_reported (p : peer) (pc : nat) (d : description)
    (error : string) (failure : option string) :
  RTCPeerConnection p = Some pc →
  createOffer (inr error) failure p =
    (p, [Rtc_createOffer pc; Listener "peer:local_offer:failure" (PError error)],
     Ret tt) ∧
  createAnswer (inr error) failure p =
    (p, [Rtc_createAnswer pc; Listener "peer:local_answer:failure" (PError error)],
     Ret tt) ∧
  setLocalDescription d (Some error) p =
    (p, [Rtc_setLocalDescription pc
           (mkDescription (d_type d) (rewritten_sdp p (d_sdp d)));
         Listener "peer:local_description:error" (PError error)], Ret tt) ∧
  setRemoteDescription d (Some error) p =
    (p, [Rtc_setRemoteDescription pc d;
         Listener "peer:remote_description:error" (PError error)], Ret tt).
Proof.
  intros Hpc.
  unfold createOffer, createAnswer, setLocalDescription, setRemoteDescription,
    Eff.bind, deref, tell, gets.
  repeat (progress (simpl; rewrite ?Hpc)). by destruct d.
Qed.

Lemma setLocalDescription_stream d failure p :
  stream (state_of (setLocalDescription d failure p)) = stream p.
Proof.
  unfold setLocalDescription, Eff.bind, deref, tell, gets, Eff.ret,
    set_newSignalingState, modify, state_of.
  simpl. destruct (RTCPeerConnection p); simpl; [|done].
  destruct failure; simpl; [done|]. by case_decide.
Qed.

(** [com.stream] is assigned by [onAddStream] and by no other method. *)
Lemma perform_stream c p :
  (∀ st, c ≠ call_onAddStream st) →
  stream (state_of (perform c p)) = stream p.
Proof.
  intros Hc. destruct c; unfold perform.
  - done.
  - unfold disconnect, Eff.bind, deref, tell, state_of.
    by destruct (RTCPeerConnection p).
  - done.
  - unfold onDataChannel. case_decide; [done|].
    unfold Eff.bind, deref, modify, state_of.
    by destruct (datachannels p !! "transfers") as [[|o m]|].
  - by destruct (Hc st).
  - unfold onIceCandidate, ICE_addCandidate, Eff.bind, deref, modify, tell,
      state_of.
    destruct (heap p !! bindPeer) as [r|]; simpl; [|done].
    by destruct (ice_immediate r).
  - unfold createOffer, Eff.bind at 1, deref.
    destruct (RTCPeerConnection p); [|done]. simpl.
    destruct generated as [d|e]; [|done]. unfold Eff.bind, tell. simpl.
    pose proof (setLocalDescription_stream d failure p) as K.
    unfold state_of in *.
    by destruct (setLocalDescription d failure p) as [[p' w'] r'].
  - unfold createAnswer, Eff.bind at 1, deref.
    destruct (RTCPeerConnection p); [|done]. simpl.
    destruct generated as [d|e]; [|done]. unfold Eff.bind, tell. simpl.
    pose proof (setLocalDescription_stream d failure p) as K.
    unfold state_of in *.
    by destruct (setLocalDescription d failure p) as [[p' w'] r'].
  - apply setLocalDescription_stream.
  - unfold setRemoteDescription, Eff.bind, deref, tell, Eff.ret,
      set_newSignalingState, modify, state_of.
    destruct (RTCPeerConnection p); simpl; [|done].
    destruct failure; simpl; [done|]. by case_decide.
  - unfold createDataChannel, modify, state_of.
    by destruct (fn_isEmpty transferId).
Qed.

(** C6 (as amended): on a session whose [RTCPeerConnection] is set,
    [setLocalDescription] hands the primitive, before anything else, the
    description whose text went through the pipeline: codec strip; then
    stereo exactly when the stream object in [com.stream] says so, which
    is [null] on a new session and is assigned by [onAddStream], from the
    stream received from the peer, and by no other method; then bitrate
    exactly when a cap is configured.  [createOffer] and [createAnswer]
    do the same with the description the primitive generated;
    [setRemoteDescription] hands over the remote description as it
    came. *)
Theorem pipeline_on_local_only (p : peer) (pc : nat) (d : description)
    (failure : option string) :
  RTCPeerConnection p = Some pc →
  let stereo :=
    match stream p with
    | Some st =>
        match config_audio_stereo st with Some b => b | None => false end
    | None => false
    end in
  let transformed :=
    mkDescription (d_type d)
      (join_crlf (pipeline stereo (globals_bandwidth p)
                    (split_crlf (d_sdp d)))) in
  (∃ rest, log_of (setLocalDescription d failure p) =
             Rtc_setLocalDescription pc transformed :: rest) ∧
  (∃ rest, log_of (createOffer (inl d) failure p) =
             [Rtc_createOffer pc;
              Listener "peer:local_offer:success" (PDescription d);
              Rtc_setLocalDescription pc transformed] ++ rest) ∧
  (∃ rest, log_of (createAnswer (inl d) failure p) =
             [Rtc_createAnswer pc;
              Listener "peer:local_answer:success" (PDescription d);
              Rtc_setLocalDescription pc transformed] ++ rest) ∧
  (∃ rest, log_of (setRemoteDescription d failure p) =
             Rtc_setRemoteDescription pc d :: rest ∧
             Forall (λ a, is_negotiation_call a = false) rest) ∧
  (∀ config_id config_userId, stream (Peer config_id config_userId) = None) ∧
  (∀ st, stream (state_of (onAddStream st p)) = Some st) ∧
  (∀ c, (∀ st, c ≠ call_onAddStream st) →
        stream (state_of (perform c p)) = stream p).
Proof.
  intros Hpc stereo transformed.
  assert (Hst : stereo_required p = stereo).
  { unfold stereo_required, fn_isSafe, stereo.
    destruct (stream p) as [st|]; [|done]. simpl.
    by destruct (config_audio_stereo st). }
  assert (Hlog :
    (∃ rest, log_of (setLocalDescription d failure p) =
               Rtc_setLocalDescription pc transformed :: rest) ∧
    (∃ rest, log_of (createOffer (inl d) failure p) =
               [Rtc_createOffer pc;
                Listener "peer:local_offer:success" (PDescription d);
                Rtc_setLocalDescription pc transformed] ++ rest) ∧
    (∃ rest, log_of (createAnswer (inl d) failure p) =
               [Rtc_createAnswer pc;
                Listener "peer:local_answer:success" (PDescription d);
                Rtc_setLocalDescription pc transformed] ++ rest) ∧
    (∃ rest, log_of (setRemoteDescription d failure p) =
               Rtc_setRemoteDescription pc d :: rest ∧
               Forall (λ a, is_negotiation_call a = false) rest)).
  { unfold transformed, createOffer, createAnswer, setLocalDescription,
      setRemoteDescription, rewritten_sdp, pipeline, Eff.bind, deref, tell,
      gets, Eff.ret, set_newSignalingState, modify, log_of.
    repeat (progress (simpl; rewrite ?Hpc, ?Hst)).
    repeat split; destruct failure; simpl; try case_decide; simpl;
      try (eexists; reflexivity);
      destruct d; eexists; (split; [reflexivity|]); repeat constructor. }
  destruct Hlog as (L1 & L2 & L3 & L4).
  do 4 (split; [done|]). split; [done|]. split; [done|].
  intros c Hc. by apply perform_stream.
Qed.

End WithSDP.

Lemma failures_are_reported_witness :
  @createOffer marking_SDP (inr "denied") None negotiating =
    (negotiating,
     [Rtc_createOffer 1; Listener "peer:local_offer:failure" (PError "denied")],
     Ret tt).
Proof.
  destruct (@failures_are_reported marking_SDP negotiating 1%nat
              (mkDescription "offer" "v=0") "denied" None) as (H1 & _).
  - reflexivity.
  - exact H1.
Defined.

(** C5, counterexample: after a rejected offer generation [readyState] is
    still 'new'. *)
Lemma failures_are_reported_counterexample :
  ¬ moved_to_failed (@createOffer marking_SDP (inr "denied") None negotiating).
Proof. intros H. vm_compute in H. discriminate. Qed.

Lemma pipeline_on_local_only_witness :
  ∃ rest,
    log_of (@setLocalDescription marking_SDP
              (mkDescription "offer" ("v=0" +:+ crlf +:+ "m=audio")) None
              negotiating_stereo) =
    Rtc_setLocalDescription 1
      (mkDescription "offer"
         ("v=0" +:+ crlf +:+ "m=audio" +:+ crlf +:+ "a=strip" +:+ crlf
          +:+ "a=stereo" +:+ crlf +:+ "b=AS")) :: rest.
Proof.
  destruct (@pipeline_on_local_only marking_SDP negotiating_stereo 1%nat
              (mkDescription "offer" ("v=0" +:+ crlf +:+ "m=audio")) None)
    as (H1 & _).
  - reflexivity.
  - exact H1.
Defined.

(** C6, counterexample: on a session that has received no stream the
    stereo parameter is not injected, also when the local audio
    configuration requires stereo. *)
Lemma pipeline_on_local_only_counterexample :
  ¬ @stereo_by_local_configuration marking_SDP true negotiating
      (mkDescription "offer" "v=0").
Proof. intros (pc & rest & H). vm_compute in H. discriminate. Qed.

(** *** ICE candidates *)












(** *** Data channels *)

(** The inbound path files a channel under its label in [transfers],
    or in [main] when the label is 'main'. *)
Lemma onDataChannel_files (p : peer) (label : string) (m : gmap string DataChannel) :
  datachannels p !! "transfers" = Some (SObject None m) →
  label ≠ "main" →
  transfers (state_of (onDataChannel label p)) = <[label := Inbound label]> m ∧
  datachannels (state_of (onDataChannel label p)) !! "main" =
    datachannels p !! "main".
Proof.
  intros Ht Hl. unfold onDataChannel. rewrite decide_False by done.
  unfold Eff.bind, deref, modify, state_of, transfers. rewrite Ht. simpl.
  rewrite lookup_insert_eq. split; [done|]. by rewrite lookup_insert_ne.
Qed.

(** The local path files a channel with a transfer id directly on
    [datachannels]. *)
Lemma createDataChannel_files (p : peer) (t : string) :
  t ≠ "" →
  datachannels (state_of (createDataChannel (Some t) p)) =
    <[t := SObject (Some (Local (Some t))) ∅]> (datachannels p).
Proof.
  intros Ht. unfold createDataChannel, fn_isEmpty.
  by rewrite bool_decide_eq_false_2.
Qed.

(** C8, at the failing input: [createDataChannel('file-1')] stores the
    channel as property 'file-1' of [datachannels] itself and leaves the
    [transfers] mapping empty, where [onDataChannel] for a channel
    labelled 'file-1' fills [transfers]; [createDataChannel('transfers')]
    replaces the mapping by a channel. *)
Theorem transfer_channel_misplaced :
  datachannels (state_of (createDataChannel (Some "file-1") negotiating)) !! "file-1" =
    Some (SObject (Some (Local (Some "file-1"))) ∅) ∧
  transfers (state_of (createDataChannel (Some "file-1") negotiating)) = ∅ ∧
  transfers (state_of (onDataChannel "file-1" negotiating)) !! "file-1" =
    Some (Inbound "file-1") ∧
  datachannels (state_of (onDataChannel "file-1" negotiating)) !! "file-1" = None ∧
  datachannels (state_of (createDataChannel (Some "transfers") negotiating)) !! "transfers" =
    Some (SObject (Some (Local (Some "transfers"))) ∅).
Proof.
  repeat split; vm_compute; reflexivity.
Qed.

End PeerFacts.

(** ** Skylink *)

Module SkylinkFacts.
Import Eff Skylink.

(** Building the information of self reads the instance and nothing
    else. *)
Lemma self_info_pure s : ∃ r, self_info s = (s, [], r).
Proof.
  unfold self_info, Eff.bind, gets, deref, Eff.ret, clone.
  destruct (_mediaScreen s); simpl.
  - destruct (_screenSharingStreamSettings s); simpl; [|by eauto].
    destruct (_streamSettings s); simpl; by eauto.
  - destruct (_streamSettings s); simpl; by eauto.
Qed.

Lemma getPeerInfo_self s : ∃ r,
  getPeerInfo JUndefined s = (s, [], r) ∧
  ∀ i, r = Ret i → ∃ x, i = InfoSelf x ∧ value_of (self_info s) = Ret x.
Proof.
  unfold getPeerInfo, Eff.bind at 1, gets. simpl.
  unfold Eff.bind at 1. destruct (self_info_pure s) as [r Hr]. rewrite Hr.
  destruct r as [x|e]; simpl.
  - eexists. split; [reflexivity|]. intros i [= <-]. eauto.
  - eexists. split; [reflexivity|]. intros i [=].
Qed.

(** C9: [setUserData(d)] stores [d], or the empty string when [d] is
    falsy, whether or not self is in a room, and changes no other field;
    outside a room it only warns; the UPDATE_USER message and the
    [peerUpdated] event occur only in a room, where they carry the stored
    value and the information of self. *)
Theorem setUserData_stores_first (s : skylink) (d : jsval) :
  state_of (setUserData d s) = set_userData (js_or d (JStr "")) s ∧
  (truthy d = true → _userData (state_of (setUserData d s)) = d) ∧
  (truthy d = false → _userData (state_of (setUserData d s)) = JStr "") ∧
  (_inRoom s = false →
     log_of (setUserData d s) = [WarnNotInRoom] ∧
     value_of (setUserData d s) = Ret tt) ∧
  (∀ a, a ∈ log_of (setUserData d s) → is_update a = true → _inRoom s = true) ∧
  (_inRoom s = true → ∀ u r, _user s = Some u → _room s = Some r →
     ∃ rest,
       log_of (setUserData d s) =
         LogUpdated d
         :: SendChannelMessage
              (mkChannelMessage UPDATE_USER (sid u) (room_id r) (js_or d (JStr "")))
         :: rest ∧
       ∀ i, value_of (self_info (state_of (setUserData d s))) = Ret i →
            rest = [PeerUpdated (sid u) i true]).
Proof.
  set (s1 := set_userData (js_or d (JStr "")) s).
  destruct (getPeerInfo_self s1) as (ri & Hri & Hself).
  assert (Hrun : setUserData d s =
    if _inRoom s then
      match _user s, _room s with
      | Some u, Some r =>
          (s1, LogUpdated d
               :: SendChannelMessage
                    (mkChannelMessage UPDATE_USER (sid u) (room_id r)
                       (js_or d (JStr "")))
               :: match ri with
                  | Ret (InfoSelf i) | Ret (InfoStored i) => [PeerUpdated (sid u) i true]
                  | _ => []
                  end,
           match ri with Ret _ => Ret tt | Raise e => Raise e end)
      | _, _ => (s1, [LogUpdated d], Raise "TypeError")
      end
    else (s1, [WarnNotInRoom], Ret tt)).
  { unfold setUserData, _parseUserData, Eff.bind, modify, gets, tell, deref.
    fold s1. simpl. destruct (_inRoom s); [|done].
    change (_user s1) with (_user s). change (_room s1) with (_room s).
    destruct (_user s) as [u|] eqn:Hu; [|done]. simpl.
    destruct (_room s) as [r|] eqn:Hr; [|done]. simpl.
    change (_user s1) with (_user s). rewrite Hu. simpl.
    rewrite Hri. destruct ri as [[|i|i|]|e]; done. }
  rewrite Hrun. clear Hrun.
  assert (Hst : state_of (if _inRoom s then
      match _user s, _room s with
      | Some u, Some r =>
          (s1, LogUpdated d
               :: SendChannelMessage
                    (mkChannelMessage UPDATE_USER (sid u) (room_id r)
                       (js_or d (JStr "")))
               :: match ri with
                  | Ret (InfoSelf i) | Ret (InfoStored i) => [PeerUpdated (sid u) i true]
                  | _ => []
                  end,
           match ri with Ret _ => Ret tt | Raise e => Raise e end)
      | _, _ => (s1, [LogUpdated d], Raise "TypeError")
      end
    else (s1, [WarnNotInRoom], Ret tt)) = s1).
  { destruct (_inRoom s); [|done]. by destruct (_user s), (_room s). }
  rewrite Hst. split; [done|].
  split; [intros Ht; unfold s1, js_or; simpl; by rewrite Ht|].
  split; [intros Ht; unfold s1, js_or; simpl; by rewrite Ht|].
  split; [by intros ->|]. split.
  - intros a Ha Hu. destruct (_inRoom s); [done|].
    apply list_elem_of_singleton in Ha. by subst.
  - intros -> u r -> ->. eexists. split; [reflexivity|].
    intros i Hi. destruct ri as [x|e].
    + destruct (Hself x eq_refl) as (y & -> & Hy). congruence.
    + destruct (self_info_pure s1) as [r' Hr'].
      unfold getPeerInfo, Eff.bind, gets in Hri. simpl in Hri.
      rewrite Hr' in Hri. rewrite Hr' in Hi. simpl in Hi. subst r'. done.
Qed.

Lemma setUserData_stores_first_witness :
  _userData (state_of (setUserData (JNum 0) outside)) = JStr "" ∧
  log_of (setUserData (JNum 0) outside) = [WarnNotInRoom] ∧
  ∃ rest, log_of (setUserData (JStr "carol") joined) =
    LogUpdated (JStr "carol")
    :: SendChannelMessage
         (mkChannelMessage UPDATE_USER (Some "self-1") "room-1" (JStr "carol"))
    :: rest.
Proof.
  destruct (setUserData_stores_first outside (JNum 0)) as (_ & _ & H1 & H2 & _).
  destruct (setUserData_stores_first joined (JStr "carol")) as (_ & _ & _ & _ & _ & H3).
  split; [apply H1; reflexivity|]. split; [apply H2; reflexivity|].
  destruct (H3 eq_refl (mkUser "user-1" (Some "self-1")) (mkRoom "room-1")
              eq_refl eq_refl) as (rest & Hrest & _).
  exists rest. exact Hrest.
Defined.

Lemma get_property_own m key e : m !! key = Some e → get_property m key = POwn e.
Proof. intros H. unfold get_property. by rewrite H. Qed.

Lemma get_property_prototype m :
  m !! "__proto__" = None → get_property m "__proto__" = PObjectPrototype.
Proof. intros H. unfold get_property. by rewrite H. Qed.

Lemma get_property_missing m key :
  m !! key = None → key ≠ "__proto__" →
  get_property m key = PMethod ∨ get_property m key = PUndefined.
Proof.
  intros H Hk. unfold get_property. rewrite H.
  rewrite bool_decide_eq_false_2 by done. destruct (bool_decide _); auto.
Qed.

(** C10 (as amended): when self has a non-empty session id, a non-empty
    string that differs from it, is not '__proto__' and has no stored
    entry gets [null] from both getters; for '__proto__' without a stored
    entry, [getPeerInfo] answers with [Object.prototype] and [getUserData]
    with [undefined].  [getPeerInfo] builds the information of self only
    for an argument that is not a string or is self's session id;
    [getUserData] answers with the user data of self only for a falsy
    argument or self's session id. *)
Theorem unknown_peer_is_null (s : skylink) (u : user) (i peerId : string)
    (v : jsval) :
  _user s = Some u → sid u = Some i → i ≠ "" →
  (peerId ≠ "" → peerId ≠ i → peerId ≠ "__proto__" →
   _peerInformations s !! peerId = None →
     getPeerInfo (JStr peerId) s = (s, [], Ret InfoNull) ∧
     getUserData (JStr peerId) s = (s, [], Ret DataNull)) ∧
  (i ≠ "__proto__" → _peerInformations s !! "__proto__" = None →
     getPeerInfo (JStr "__proto__") s = (s, [], Ret InfoObjectPrototype) ∧
     getUserData (JStr "__proto__") s = (s, [], Ret (DataStored JUndefined))) ∧
  (∀ x, value_of (getPeerInfo v s) = Ret (InfoSelf x) →
     is_string v = false ∨ v = JStr i) ∧
  (∀ x, value_of (getUserData v s) = Ret (DataSelf x) →
     truthy v = false ∨ v = JStr i).
Proof.
  intros Hu Hs Hi. split; [|split; [|split]].
  - intros Hp Hne Hproto Hnone.
    unfold getPeerInfo, getUserData, Eff.bind, gets, deref, Eff.ret.
    repeat (progress (simpl;
      rewrite ?Hu, ?Hs, ?bool_decide_eq_false_2 by done)).
    by destruct (get_property_missing _ _ Hnone Hproto) as [-> | ->].
  - intros Hne Hnone.
    unfold getPeerInfo, getUserData, Eff.bind, gets, deref, Eff.ret.
    repeat (progress (simpl;
      rewrite ?Hu, ?Hs, ?bool_decide_eq_false_2 by done)).
    by rewrite (get_property_prototype _ Hnone).
  - intros x. unfold getPeerInfo, Eff.bind at 1, gets. simpl. rewrite Hu, Hs.
    rewrite bool_decide_eq_false_2 by done.
    destruct v as [| | | | |a|]; simpl; try (by left).
    destruct (bool_decide (a = i)) eqn:E.
    + apply bool_decide_eq_true_1 in E. subst. by right.
    + simpl. destruct (get_property _ a) as [[| |]| | |]; done.
  - intros x. unfold getUserData.
    destruct (truthy v) eqn:Ht; [|by left].
    unfold Eff.bind, gets, deref, Eff.ret. rewrite Hu. simpl. rewrite Hs.
    destruct v as [| | | | |a|]; simpl;
      try (destruct (get_property _ _) as [[| |]| | |]; done).
    destruct (bool_decide (a = i)) eqn:E.
    + apply bool_decide_eq_true_1 in E. subst. by right.
    + simpl. destruct (get_property _ a) as [[| |]| | |]; done.
Qed.

Lemma unknown_peer_is_null_witness :
  getPeerInfo (JStr "peer-9") joined = (joined, [], Ret InfoNull) ∧
  getUserData (JStr "peer-9") joined = (joined, [], Ret DataNull).
Proof.
  destruct (unknown_peer_is_null joined (mkUser "user-1" (Some "self-1"))
              "self-1" "peer-9" JUndefined) as (H & _).
  - reflexivity.
  - reflexivity.
  - intros E. discriminate E.
  - apply H.
    + intros E. discriminate E.
    + intros E. discriminate E.
    + intros E. discriminate E.
    + vm_compute. reflexivity.
Defined.

(** C10, counterexample: the empty string gets the user data of self
    from [getUserData]; before self has a session id, [getPeerInfo]
    answers any string with the information of self; and the string
    '__proto__' gets [Object.prototype], not [null]. *)
Lemma unknown_peer_is_null_counterexample :
  ¬ null_for_unknown joined "" ∧ ¬ null_for_unknown outside "peer-9" ∧
  ¬ null_for_unknown joined "__proto__".
Proof.
  split; [|split]; intros H.
  - destruct H as [_ H].
    + intros u [= <-]. simpl. discriminate.
    + vm_compute. reflexivity.
    + vm_compute in H. discriminate.
  - destruct H as [H _].
    + intros u [=].
    + vm_compute. reflexivity.
    + vm_compute in H. discriminate.
  - destruct H as [H _].
    + intros u [= <-]. simpl. discriminate.
    + vm_compute. reflexivity.
    + vm_compute in H. discriminate.
Qed.

End SkylinkFacts.

(** * Further properties *)

(** ** SkylinkSocket: invariants of the queue, the timer and the cursor *)

Module SocketInvariants.
Import Socket SocketFacts.

(** Steps other than [send] and a timeout leave the queue, the timer and
    what has been handed over as they are. *)
Lemma step_quiet s i :
  (∀ now m, i ≠ call_send now m) → (∀ id now, i ≠ timeout_fires id now) →
  _messaging (step s i) = _messaging s ∧ armed (step s i) = armed s ∧
  handed (out (step s i)) = handed (out s).
Proof.
  intros Hs Ht. destruct i as [| | |now m|id now|id e]; unfold step.
  - apply connect_quiet.
  - unfold disconnect. destruct (_socket s); [|done].
    simpl. by rewrite handed_app, app_nil_r.
  - done.
  - by destruct (Hs now m).
  - by destruct (Ht id now).
  - unfold on_io. destruct (bool_decide _); [apply handler_quiet|done].
Qed.

(** A drain hands over the envelope of the first [throughput] queued
    messages, if any, and leaves the rest queued. *)
Lemma delayFn_effect now s :
  handed (out (delayFn now s)) =
    handed (out s) ++ option_list (envelope (take throughput (queue (_messaging s)))) ∧
  queue (_messaging (delayFn now s)) = drop throughput (queue (_messaging s)).
Proof.
  unfold delayFn. destruct (queue (_messaging s)) as [|data rest] eqn:Hq.
  - simpl. rewrite Hq, app_nil_r. done.
  - destruct (Nat.ltb_spec (length (data :: rest)) throughput) as [Hlt|Hge].
    + rewrite take_ge, drop_ge by lia. simpl. rewrite fn_handed. simpl.
      destruct (fn_fields (Group (data :: rest) (m_mid data) (m_rid data))
                  (set_queue [] s)) as (F1 & _). by rewrite F1.
    + cbn -[take drop throughput]. rewrite fn_handed.
      match goal with |- context [fn ?f ?st] =>
        destruct (fn_fields f st) as (F1 & _) end.
      rewrite F1. done.
Qed.

Lemma delayFn_timer now s :
  armed s = [] → one_timer (delayFn now s).
Proof.
  intros Ha. unfold delayFn, one_timer.
  destruct (queue (_messaging s)) as [|data rest]; [by rewrite Ha|].
  destruct (_ <? _)%nat; simpl;
    match goal with |- context [fn ?f ?st] =>
      destruct (fn_fields f st) as (_ & _ & F3 & F4 & F5 & _) end;
    rewrite ?F3, ?F4, ?F5; simpl; rewrite Ha;
    by destruct (timer (_messaging s)).
Qed.

Lemma filter_fired id due (a : list (nat * Z)) :
  a = [(id, due)] → filter (λ t, fst t ≠ id) a = [].
Proof. intros ->. by rewrite filter_cons_False by (simpl; intros ?; done). Qed.

Lemma step_one_timer s i : one_timer s → one_timer (step s i).
Proof.
  intros H.
  assert (Hquiet : (∀ now m, i ≠ call_send now m) →
                   (∀ id now, i ≠ timeout_fires id now) → one_timer (step s i)).
  { intros Hs Ht. destruct (step_quiet s i Hs Ht) as (Hm & Ha & _).
    unfold one_timer. by rewrite Hm, Ha. }
  destruct i as [| | |now m|id now|id e]; try (by apply Hquiet).
  - unfold step. destruct (send_either now m s) as [[e0 ->]| ->].
    + simpl. destruct (timer (_messaging s)) as [id|] eqn:Ht.
      * unfold one_timer in *. simpl. exact H.
      * unfold one_timer in *. simpl.
        destruct (armed s) as [|[id due] [|? ?]]; try done. congruence.
    + unfold one_timer in *. simpl.
      destruct (fn_fields (Single m) s) as (_ & _ & F3 & F4 & _).
      by rewrite F3, F4.
  - unfold step, timer_fires. destruct (existsb _ _) eqn:E; [|done].
    apply delayFn_timer. simpl. unfold one_timer in H.
    destruct (armed s) as [|[id0 due0] [|? ?]] eqn:Ha; try done.
    simpl in E. rewrite orb_false_r in E. apply andb_prop in E as [E _].
    apply Nat.eqb_eq in E. subst id0. by eapply filter_fired.
Qed.

(** X1.  Whatever the transport goes through, at most one drain timeout is
    pending at any time, and it is the one whose handle is stored in
    [_messaging.timer]. *)
Theorem single_pending_timeout (s : state) (l : list input) :
  one_timer s → one_timer (run s l).
Proof.
  revert s. induction l as [|i l IH]; intros s H; [done|].
  apply (IH (step s i)). by apply step_one_timer.
Qed.

Lemma single_pending_timeout_witness :
  one_timer (run (fresh signaling_server defaults_ports Https true) sixteen_then_two).
Proof.
  apply (single_pending_timeout (fresh signaling_server defaults_ports Https true)).
  vm_compute. exact I.
Defined.

(** What a call of [send] does to the queue and to what is handed over:
    it appends the message to the queue, or hands it over by itself. *)
Lemma send_effect now m s :
  (queue (_messaging (send now m s)) = queue (_messaging s) ++ [m] ∧
   handed (out (send now m s)) = handed (out s)) ∨
  (queue (_messaging (send now m s)) = queue (_messaging s) ∧
   handed (out (send now m s)) = handed (out s) ++ [Single m]).
Proof.
  destruct (send_either now m s) as [[e0 ->]| ->].
  - left. simpl. by destruct (timer (_messaging s)).
  - right. simpl. rewrite fn_handed.
    destruct (fn_fields (Single m) s) as (F1 & _). by rewrite F1.
Qed.

Lemma timer_effect id now s :
  (queue (_messaging (timer_fires id now s)) = queue (_messaging s) ∧
   handed (out (timer_fires id now s)) = handed (out s)) ∨
  (queue (_messaging (timer_fires id now s)) = drop throughput (queue (_messaging s)) ∧
   handed (out (timer_fires id now s)) =
     handed (out s) ++ option_list (envelope (take throughput (queue (_messaging s))))).
Proof.
  unfold timer_fires. destruct (existsb _ _); [right|by left].
  match goal with |- context [delayFn now ?st] =>
    destruct (delayFn_effect now st) as (H1 & H2) end.
  by rewrite H1, H2.
Qed.

Lemma envelope_within_cap q g :
  envelope (take throughput q) = Some g → within_cap g.
Proof.
  destruct q as [|d q]; [done|]. intros [= <-]. simpl.
  rewrite length_take. unfold throughput. lia.
Qed.

Lemma envelope_contents q g : envelope q = Some g → contents g = q.
Proof. destruct q; [done|]. by intros [= <-]. Qed.

Lemma envelope_none q : envelope q = None → q = [].
Proof. by destruct q. Qed.

(** The ways one step can change the queue and what is handed over. *)
Lemma step_effect s i :
  (queue (_messaging (step s i)) = queue (_messaging s) ∧
   handed (out (step s i)) = handed (out s) ∧ submitted [i] = []) ∨
  (∃ m, queue (_messaging (step s i)) = queue (_messaging s) ++ [m] ∧
        handed (out (step s i)) = handed (out s) ∧ submitted [i] = [m]) ∨
  (∃ m, queue (_messaging (step s i)) = queue (_messaging s) ∧
        handed (out (step s i)) = handed (out s) ++ [Single m] ∧
        submitted [i] = [m]) ∨
  (∃ g, queue (_messaging (step s i)) = drop throughput (queue (_messaging s)) ∧
        handed (out (step s i)) = handed (out s) ++ [g] ∧
        envelope (take throughput (queue (_messaging s))) = Some g ∧
        submitted [i] = []).
Proof.
  assert (Hquiet : (∀ now m, i ≠ call_send now m) →
                   (∀ id now, i ≠ timeout_fires id now) → submitted [i] = [] →
                   queue (_messaging (step s i)) = queue (_messaging s) ∧
                   handed (out (step s i)) = handed (out s) ∧ submitted [i] = []).
  { intros Hs Ht Hsub. destruct (step_quiet s i Hs Ht) as (Hm & _ & Hh).
    by rewrite Hm, Hh. }
  destruct i as [| | |now m|id now|id e]; try (left; by apply Hquiet).
  - unfold step. destruct (send_effect now m s) as [[H1 H2]|[H1 H2]].
    + right. left. by exists m.
    + right. right. left. by exists m.
  - unfold step. destruct (timer_effect id now s) as [[H1 H2]|[H1 H2]].
    + by left.
    + destruct (envelope (take throughput (queue (_messaging s)))) as [g|] eqn:E.
      * right. right. right. by exists g.
      * left. apply envelope_none in E. simpl in H2. rewrite app_nil_r in H2.
        split; [|done]. rewrite H1.
        destruct (queue (_messaging s)); [done|]. done.
Qed.

(** X2.  No envelope is empty or holds more than [throughput] messages,
    whatever the transport goes through. *)
Theorem envelopes_within_cap (s : state) (l : list input) :
  Forall within_cap (handed (out s)) →
  Forall within_cap (handed (out (run s l))).
Proof.
  revert s. induction l as [|i l IH]; intros s H; [done|].
  apply (IH (step s i)).
  destruct (step_effect s i) as [(_ & -> & _)|[(m & _ & -> & _)|
    [(m & _ & -> & _)|(g & _ & -> & E & _)]]]; try done.
  - apply Forall_app. split; [done|]. by constructor.
  - apply Forall_app. split; [done|]. constructor; [|done].
    by eapply envelope_within_cap.
Qed.

Lemma envelopes_within_cap_witness :
  Forall within_cap
    (handed (out (run (fresh signaling_server defaults_ports Https true)
                    sixteen_then_two))).
Proof.
  apply (envelopes_within_cap (fresh signaling_server defaults_ports Https true)).
  vm_compute. constructor.
Defined.

Lemma submitted_cons i l : submitted (i :: l) = submitted [i] ++ submitted l.
Proof. by destruct i. Qed.

(** X3.  Every message passed to [send] is, at any later moment, either in a
    frame that was handed to the send callback or still in the queue, and
    in exactly one of them. *)
Theorem messages_conserved (s : state) (l : list input) :
  concat (map contents (handed (out (run s l)))) ++ queue (_messaging (run s l))
  ≡ₚ concat (map contents (handed (out s))) ++ queue (_messaging s) ++ submitted l.
Proof.
  revert s. induction l as [|i l IH]; intros s.
  - simpl. by rewrite app_nil_r.
  - change (run s (i :: l)) with (run (step s i) l). rewrite (IH (step s i)).
    rewrite (submitted_cons i l).
    destruct (step_effect s i) as [(-> & -> & ->)|[(m & -> & -> & ->)|
      [(m & -> & -> & ->)|(g & -> & -> & E & ->)]]].
    + done.
    + by rewrite <- !app_assoc.
    + rewrite map_app, concat_app. simpl. rewrite <- !app_assoc. simpl.
      apply Permutation_app_head. apply Permutation_middle.
    + rewrite map_app, concat_app. simpl.
      rewrite (envelope_contents _ _ E), app_nil_r, <- !app_assoc.
      rewrite (app_assoc (take _ _)), take_drop. done.
Qed.

Lemma grouped_app l1 l2 : grouped (l1 ++ l2) = grouped l1 ++ grouped l2.
Proof. unfold grouped. by rewrite omap_app, concat_app. Qed.

Lemma grouped_envelope q g : envelope q = Some g → grouped [g] = q.
Proof.
  destruct q as [|d q]; [done|]. intros [= <-]. unfold grouped. simpl.
  by rewrite app_nil_r.
Qed.

(** X4.  The messages that went through the queue leave it in the order in
    which they were submitted: the envelopes, read one after the other and
    followed by the queue, list them in submission order. *)
Theorem queue_keeps_order (s : state) (l : list input) :
  ∃ queued,
    grouped (handed (out (run s l))) ++ queue (_messaging (run s l)) =
      grouped (handed (out s)) ++ queue (_messaging s) ++ queued ∧
    sublist queued (submitted l).
Proof.
  revert s. induction l as [|i l IH]; intros s.
  - exists []. by rewrite app_nil_r.
  - change (run s (i :: l)) with (run (step s i) l).
    destruct (IH (step s i)) as (x & Hx & Hsub). rewrite Hx.
    rewrite (submitted_cons i l).
    destruct (step_effect s i) as [(-> & -> & ->)|[(m & -> & -> & ->)|
      [(m & -> & -> & ->)|(g & -> & -> & E & ->)]]].
    + by exists x.
    + exists (m :: x). rewrite <- !app_assoc. split; [done|].
      by apply sublist_skip.
    + exists x. rewrite grouped_app. unfold grouped at 2. simpl.
      rewrite app_nil_r. split; [done|]. by apply sublist_cons.
    + exists x. rewrite grouped_app, (grouped_envelope _ _ E).
      rewrite <- !app_assoc. rewrite (app_assoc (take _ _)).
      by rewrite take_drop.
Qed.

(** X5.  A message that is not of a queued type, or that is submitted when
    the time since the last timestamp is not below the interval (a full
    interval has passed, or the difference is not a number), is handed
    over at once and by itself, whatever the queue holds: the queue and
    the timer are left alone, so it overtakes the messages still queued.
    The timestamp becomes the clock reading, or the fallback function
    when the clock reads 0. *)
Theorem immediate_overtakes (s : state) (now : Z) (m : message) :
  must_queue m = false ∨ (∀ e, elapsed now s = Some e → interval ≤ e) →
  handed (out (send now m s)) = handed (out s) ++ [Single m] ∧
  queue (_messaging (send now m s)) = queue (_messaging s) ∧
  timer (_messaging (send now m s)) = timer (_messaging s) ∧
  armed (send now m s) = armed s ∧
  timestamp (_messaging (send now m s)) =
    (if now =? 0 then TsFunction else TsNumber now).
Proof.
  intros H. rewrite send_immediate by (destruct H; [by right|by left]).
  simpl. rewrite fn_handed.
  destruct (fn_fields (Single m) s) as (F1 & F2 & F3 & F4 & _).
  by rewrite F1, F3, F4.
Qed.

Lemma immediate_overtakes_witness :
  handed (out (send 9000 (mute "newer") starved)) =
    handed (out starved) ++ [Single (mute "newer")] ∧
  queue (_messaging (send 9000 (mute "newer") starved)) = [late].
Proof.
  destruct (immediate_overtakes starved 9000 (mute "newer")) as (H1 & H2 & _).
  - right. intros e E. vm_compute in E. injection E as <-. vm_compute. discriminate.
  - split; [exact H1|]. rewrite H2. vm_compute. reflexivity.
Defined.

(** *** The socket object *)








(** *** The reconnection cursor *)

Lemma kind_le_refl k : kind_le k k.
Proof. by destruct k. Qed.

Lemma not_behind_refl s : not_behind s s.
Proof. unfold not_behind. split; [lia|]. split; [apply kind_le_refl|done]. Qed.

Lemma not_behind_trans s1 s2 s3 :
  not_behind s1 s2 → not_behind s2 s3 → not_behind s1 s3.
Proof.
  intros (A1 & B1 & C1) (A2 & B2 & C2). split; [lia|]. split; [|by auto].
  by destruct (transport (_connection s1)), (transport (_connection s2)),
    (transport (_connection s3)).
Qed.

Lemma not_behind_same s s' :
  retries_current (_connection s') = retries_current (_connection s) →
  transport (_connection s') = transport (_connection s) →
  transportFallback (_connection s') = transportFallback (_connection s) →
  not_behind s s'.
Proof.
  intros H1 H2 H3. unfold not_behind. rewrite H1, H2, H3.
  split; [lia|]. split; [apply kind_le_refl|done].
Qed.

Lemma connect_cursor s :
  retries_current (_connection (connect s)) = retries_current (_connection s) ∧
  transport (_connection (connect s)) = transport (_connection s) ∧
  transportFallback (_connection (connect s)) = transportFallback (_connection s).
Proof.
  unfold connect. simpl. destruct (port (_connection s)) as [[| |]|]; done.
Qed.

Lemma retry_cursor index s :
  retries_current (_connection (retry index s)) = retries_current (_connection s) ∧
  transport (_connection (retry index s)) = transport (_connection s) ∧
  transportFallback (_connection (retry index s)) = transportFallback (_connection s).
Proof.
  unfold retry.
  match goal with |- context [connect ?st] =>
    destruct (connect_cursor st) as (-> & -> & ->) end.
  done.
Qed.

Lemma reconnect_cursor s : not_behind s (_reconnect s).
Proof.
  unfold _reconnect.
  set (s1 := match _socket s with Some id => _ | None => s end).
  assert (Hs1 : _connection s1 = _connection s).
  { unfold s1. destruct (_socket s) eqn:E; [|done].
    unfold disconnect. simpl. by rewrite E. }
  clearbody s1.
  assert (Hfrom : ∀ x, not_behind s1 x → not_behind s x).
  { intros x. unfold not_behind. by rewrite Hs1. }
  apply Hfrom. clear Hfrom Hs1.
  destruct (_ =? -1).
  { apply not_behind_same;
      [rewrite (proj1 (retry_cursor _ _))
      |rewrite (proj1 (proj2 (retry_cursor _ _)))
      |rewrite (proj2 (proj2 (retry_cursor _ _)))]; done. }
  destruct (_ <? _).
  { apply not_behind_same;
      [rewrite (proj1 (retry_cursor _ _))
      |rewrite (proj1 (proj2 (retry_cursor _ _)))
      |rewrite (proj2 (proj2 (retry_cursor _ _)))]; done. }
  destruct (transport (_connection s1)) eqn:Et.
  { unfold not_behind.
    rewrite (proj1 (retry_cursor _ _)), (proj1 (proj2 (retry_cursor _ _))),
      (proj2 (proj2 (retry_cursor _ _))).
    simpl. rewrite Et. split; [lia|]. done. }
  by apply not_behind_same.
Qed.

Lemma step_cursor s i : i ≠ call_reset → not_behind s (step s i).
Proof.
  intros Hi. destruct i as [| | |now m|id now|id e]; unfold step; try done.
  - apply not_behind_same; apply connect_cursor.
  - unfold disconnect. destruct (_socket s); by apply not_behind_same.
  - destruct (send_either now m s) as [[e0 ->]| ->].
    + simpl. destruct (timer (_messaging s)); by apply not_behind_same.
    + unfold fn. destruct (_socket s); [destruct (connected s)|];
        by apply not_behind_same.
  - unfold timer_fires. destruct (existsb _ _); [|apply not_behind_refl].
    unfold delayFn, fn. simpl. destruct (queue (_messaging s));
      [by apply not_behind_same|].
    destruct (_ <? _)%nat; destruct (_socket s); try destruct (connected s);
      by apply not_behind_same.
  - unfold on_io. destruct (bool_decide _); [|apply not_behind_refl].
    destruct e; simpl; try (by apply not_behind_same); try apply not_behind_refl.
    + destruct (_ =? 0); by apply not_behind_same.
    + unfold not_behind. simpl. split; [lia|]. split; [apply kind_le_refl|done].
    + eapply not_behind_trans; [|apply reconnect_cursor]. by apply not_behind_same.
Qed.

(** X7.  Short of [reset()], nothing moves the reconnection cursor back: the
    retry count never goes down, the transport kind never returns from
    Polling to WebSocket, and the fallback flag, once raised, stays
    raised. *)
Theorem cursor_only_advances (s : state) (l : list input) :
  Forall (λ i, i ≠ call_reset) l → not_behind s (run s l).
Proof.
  revert s. induction l as [|i l IH]; intros s H; [apply not_behind_refl|].
  inversion H as [|? ? Hi Hl]; subst.
  eapply not_behind_trans; [by apply step_cursor|]. by apply (IH (step s i)).
Qed.

Lemma cursor_only_advances_witness :
  not_behind (fresh signaling_server defaults_ports Https true)
    (run (fresh signaling_server defaults_ports Https true)
       [call_connect; socket_reports 1 (io_reconnect_attempt 1);
        socket_reports 1 io_reconnect_failed]).
Proof.
  apply cursor_only_advances.
  repeat constructor; discriminate.
Defined.

(** *** An empty port list *)

Lemma indexOf_undefined l : indexOf l PortUndefined = -1.
Proof.
  unfold indexOf. generalize 0. induction l as [|y l IH]; intros o; [done|].
  simpl. apply IH.
Qed.

Lemma fails_undefined s t :
  port (_connection s) = PortUndefined → transport (_connection s) = t →
  (∃ id, _socket s = Some id ∧ id ∈ listening s) →
  (port (_connection (current_fails s)) = PortUndefined ∧
   transport (_connection (current_fails s)) = t ∧
   dead (current_fails s) = false ∧
   ∃ id, _socket (current_fails s) = Some id ∧ id ∈ listening (current_fails s)) ∧
  attempts (out (current_fails s)) = attempts (out s) ++ [(PortUndefined, t)].
Proof.
  intros Hp Ht (id & Hid & Hl).
  unfold current_fails, on_io. rewrite Hid, bool_decide_eq_true_2 by done.
  unfold handler, _reconnect. simpl. rewrite Hid.
  unfold disconnect. simpl. rewrite Hid. simpl.
  rewrite Hp, indexOf_undefined. simpl.
  unfold retry, connect, _listenToEvents. simpl. rewrite Hp. simpl.
  rewrite !attempts_app. simpl. rewrite Hp, Ht, !app_nil_r.
  split; [|done]. repeat split; try done.
  eexists. split; [done|]. apply list_elem_of_here.
Qed.

(** X8.  With no port configured for the protocol in use, [connect] targets
    the port 'undefined', and no number of failures changes that or ends
    the campaign: [_reconnect] restores the default port lists but keeps
    retrying the same target under the same transport kind. *)
Theorem empty_port_list_never_ends (s0 : state) (n : nat) :
  ports_of (ports s0) (protocol s0) = [] →
  dead (after_failures s0 n) = false ∧
  port (_connection (after_failures s0 n)) = PortUndefined ∧
  attempts (out (after_failures s0 n)) =
    attempts (out s0)
    ++ replicate (S n) (PortUndefined, transport (_connection (reset s0))).
Proof.
  intros Hps. set (t := transport (_connection (reset s0))).
  assert (H : (port (_connection (after_failures s0 n)) = PortUndefined ∧
               transport (_connection (after_failures s0 n)) = t ∧
               dead (after_failures s0 n) = false ∧
               ∃ id, _socket (after_failures s0 n) = Some id ∧
                     id ∈ listening (after_failures s0 n)) ∧
              attempts (out (after_failures s0 n)) =
                attempts (out s0) ++ replicate (S n) (PortUndefined, t)).
  { induction n as [|n IH].
    - change (after_failures s0 0) with (connect (reset s0)).
      assert (Hr : ports_of (ports (reset s0)) (protocol (reset s0)) = []) by done.
      assert (Hp : port (_connection (reset s0)) = PortNum 0)
        by (unfold reset; by destruct (hasWebSocket s0)).
      assert (Ho : out (reset s0) = out s0) by done.
      fold t. unfold t. clear t. revert Hr Hp Ho. generalize (reset s0). intros r Hr Hp Ho.
      unfold connect, _listenToEvents. simpl.
      rewrite Hp, Hr. simpl. rewrite attempts_app, Ho. simpl.
      split; [|done]. repeat split; try done.
      eexists. split; [done|]. apply list_elem_of_here.
    - destruct IH as ((Hp & Ht & Hd & Hs) & Ha).
      change (after_failures s0 (S n)) with (current_fails (after_failures s0 n)).
      destruct (fails_undefined _ t Hp Ht Hs) as (Hinv & Hatt).
      split; [done|]. rewrite Hatt, Ha, <- app_assoc. f_equal.
      change (replicate (S n) (PortUndefined, t) ++ [(PortUndefined, t)])
        with ((PortUndefined, t) :: replicate n (PortUndefined, t) ++ [(PortUndefined, t)]).
      rewrite <- replicate_cons_app. done. }
  destruct H as ((Hp & _ & Hd & _) & Ha). done.
Qed.

Lemma empty_port_list_never_ends_witness :
  dead (after_failures (fresh signaling_server (mkPorts [] [80]) Https true) 7) = false.
Proof.
  destruct (empty_port_list_never_ends
              (fresh signaling_server (mkPorts [] [80]) Https true) 7) as (H & _).
  - reflexivity.
  - exact H.
Defined.

(** *** Draining a burst *)

Lemma settle_tick n id due s :
  armed s = [(id, due)] →
  settle (S n) s = settle n (delayFn due (set_armed [] s)).
Proof.
  intros Ha. simpl. rewrite Ha.
  by rewrite (timer_fires_due id due due s Ha) by lia.
Qed.

Lemma drain_fields now s :
  armed s = [] → queue (_messaging s) ≠ [] →
  ((length (queue (_messaging s)) < throughput)%nat →
     armed (delayFn now s) = [] ∧ timer (_messaging (delayFn now s)) = None) ∧
  ((throughput ≤ length (queue (_messaging s)))%nat →
     armed (delayFn now s) = [(S (timers_made s), now + interval)] ∧
     timer (_messaging (delayFn now s)) = Some (S (timers_made s))).
Proof.
  intros Ha Hq. unfold delayFn.
  destruct (queue (_messaging s)) as [|data rest]; [done|].
  destruct (Nat.ltb_spec (length (data :: rest)) throughput) as [Hlt|Hge];
    (split; [intros ?|intros ?]; try lia); simpl;
    match goal with |- context [fn ?f ?st] =>
      destruct (fn_fields f st) as (_ & _ & F3 & F4 & F5 & _) end;
    rewrite ?F3, ?F4, ?F5; simpl; rewrite Ha;
    by destruct (timer (_messaging s)).
Qed.

Lemma envelope_take q :
  q ≠ [] → is_Some (envelope (take throughput q)).
Proof. destruct q; [done|]. intros _. by eexists. Qed.

(** X9.  A drain timeout that finds [n] messages queued, with nothing else
    happening, empties the queue in [ticks] timeouts one interval apart,
    where [ticks] is [n / 16] rounded up: it hands over [ticks] envelopes
    that list the queue in order.  If [n] is not a multiple of 16 the
    timer handle is then cleared; if it is, one more timeout stays
    pending. *)
Theorem burst_drained (ticks : nat) : ∀ (s : state) (id : nat) (due : Z),
  armed s = [(id, due)] →
  (throughput * (ticks - 1) < length (queue (_messaging s)) ≤ throughput * ticks)%nat →
  handed (out (settle ticks s)) =
    handed (out s) ++ envelopes ticks (queue (_messaging s)) ∧
  concat (map contents (envelopes ticks (queue (_messaging s)))) =
    queue (_messaging s) ∧
  length (envelopes ticks (queue (_messaging s))) = ticks ∧
  queue (_messaging (settle ticks s)) = [] ∧
  ((length (queue (_messaging s)) < throughput * ticks)%nat →
     armed (settle ticks s) = [] ∧ timer (_messaging (settle ticks s)) = None) ∧
  (length (queue (_messaging s)) = (throughput * ticks)%nat →
     ∃ id', armed (settle ticks s) = [(id', due + Z.of_nat ticks * interval)] ∧
            timer (_messaging (settle ticks s)) = Some id').
Proof.
  induction ticks as [|n IH]; intros s id due Ha Hlen; [lia|].
  rewrite (settle_tick n id due s Ha).
  set (s1 := set_armed [] s).
  assert (Hq1 : queue (_messaging s1) = queue (_messaging s)) by done.
  assert (Ho1 : out s1 = out s) by done.
  assert (Hne : queue (_messaging s) ≠ []).
  { intros E. rewrite E in Hlen. simpl in Hlen. lia. }
  destruct (delayFn_effect due s1) as (Hh & Hq).
  destruct (drain_fields due s1 eq_refl) as (Hb & Hf); [by rewrite Hq1|].
  rewrite Hq1 in *. rewrite Ho1 in Hh.
  destruct (envelope_take _ Hne) as [g Hg]. rewrite Hg in Hh. simpl in Hh.
  cbn [envelopes]. rewrite Hg.
  assert (Hc : contents g = take throughput (queue (_messaging s)))
    by (by apply envelope_contents).
  destruct (decide (length (queue (_messaging s)) < throughput)%nat) as [Hlt|Hge].
  - (* the last envelope *)
    assert (n = 0%nat) as -> by (unfold throughput in *; lia).
    destruct (Hb Hlt) as (A1 & A2). simpl.
    assert (Hd : drop throughput (queue (_messaging s)) = []) by (apply drop_ge; lia).
    rewrite Hd in Hq. rewrite Hh, Hc, app_nil_r, take_ge by lia.
    repeat split; try done; try (intros ?; unfold throughput in *; lia).
  - destruct (Hf ltac:(lia)) as (A1 & A2).
    destruct (decide (length (queue (_messaging s)) = throughput)) as [He|Hmore].
    + (* exactly one capful: the queue is empty and a timeout is pending *)
      assert (n = 0%nat) as -> by (unfold throughput in *; lia).
      assert (Hd : drop throughput (queue (_messaging s)) = []) by (apply drop_ge; lia).
      simpl. rewrite Hd in Hq. rewrite Hh, Hc, app_nil_r, take_ge by lia.
      repeat split; try done; try (intros ?; unfold throughput in *; lia).
      intros _. exists (S (timers_made s1)). rewrite A1, A2. split; [|done].
      do 2 f_equal; lia.
    + destruct (IH (delayFn due s1) (S (timers_made s1)) (due + interval) A1)
        as (B1 & B2 & B3 & B4 & B5 & B6).
      { rewrite Hq, length_drop. unfold throughput in *. lia. }
      rewrite Hq in *. rewrite B1, Hh, <- app_assoc. simpl.
      rewrite B2, B3, Hc, take_drop.
      split; [done|]. split; [done|]. split; [done|]. split; [done|]. split.
      * intros Hl. apply B5. rewrite length_drop. unfold throughput in *. lia.
      * intros Hl. destruct B6 as (id' & C1 & C2).
        { rewrite length_drop. unfold throughput in *. lia. }
        exists id'. rewrite C1, C2. split; [|done]. do 2 f_equal; lia.
Qed.

Lemma burst_drained_witness :
  handed (out (settle 2 (submit flushed twenty))) =
    handed (out (submit flushed twenty)) ++ envelopes 2 (map snd twenty) ∧
  queue (_messaging (settle 2 (submit flushed twenty))) = [].
Proof.
  destruct (burst_drained 2 (submit flushed twenty) 1%nat 6000)
    as (H1 & _ & _ & H4 & _).
  - vm_compute. reflexivity.
  - vm_compute. lia.
  - split; [|exact H4]. rewrite H1. f_equal.
Defined.

End SocketInvariants.

(** ** Peer: text, channels and the connection object *)

Module SocketRetries.
Import Socket SocketFacts.

Lemma retry_labels_app l1 l2 :
  retry_labels (l1 ++ l2) = retry_labels l1 ++ retry_labels l2.
Proof. apply omap_app. Qed.

Lemma disconnected_app l1 l2 :
  disconnected (l1 ++ l2) = disconnected l1 ++ disconnected l2.
Proof. apply omap_app. Qed.

Lemma retry_out index s :
  out (retry index s) =
    out s ++ [Trigger (connectRetry (fallbackType_of index s)
                         (retries_current (_connection s)));
              IoConnect (S (sockets_made s)) (_connection (retry index s))
                (timeout_ s)].
Proof. unfold retry, connect, _listenToEvents. simpl. by rewrite <- app_assoc. Qed.

Lemma retry_labels_retry index s :
  retry_labels (out (retry index s)) =
    retry_labels (out s) ++ [fallbackType_of index s].
Proof. rewrite retry_out, retry_labels_app. done. Qed.

Lemma disconnected_retry index s :
  disconnected (out (retry index s)) = disconnected (out s).
Proof. rewrite retry_out, disconnected_app. simpl. by rewrite app_nil_r. Qed.

(** X10.  The label published with [connectRetry] is computed from the
    port index that has just failed and from the transport kind that will
    be tried: the move from the first port to the second is labelled
    'nonfallback' unless the fallback flag is raised, a move from a later
    port carries the label of the protocol and kind, and the switch to
    Polling always carries the long-polling label. *)
Theorem retry_label (ps : list Z) (i : nat) (p : Z) (t : kind) (s : state) :
  NoDup ps → at_port ps p t s → ps !! i = Some p →
  let variant (k : kind) :=
    match protocol s, k with
    | Http, WebSocket => "fallbackPortNonSSL"
    | Http, Polling => "fallbackLongPollingNonSSL"
    | Https, WebSocket => "fallbackPortSSL"
    | Https, Polling => "fallbackLongPollingSSL"
    end in
  ((S i < length ps)%nat →
     retry_labels (out (current_fails s)) =
       retry_labels (out s)
       ++ [if (0 <? i)%nat || transportFallback (_connection s)
           then variant t else "nonfallback"]) ∧
  (S i = length ps → t = WebSocket →
     retry_labels (out (current_fails s)) =
       retry_labels (out s) ++ [variant Polling]).
Proof.
  intros Hnd (Hps & Hp & Ht & Hd & Hc & id & Hid & Hl) Hi variant.
  assert (Hrun : current_fails s =
            _reconnect (emit (Trigger (connectError (-1)
              (Some (reconnect_failed_message s)) (transport (_connection s)))) s)).
  { unfold current_fails, on_io. by rewrite Hid, bool_decide_eq_true_2 by done. }
  rewrite Hrun. unfold _reconnect. simpl. rewrite Hid.
  unfold disconnect. simpl. rewrite Hid. simpl.
  rewrite Hps, Hp, Ht, (indexOf_lookup ps i p) by done.
  destruct (Z.eqb_spec (Z.of_nat i) (-1)); [lia|].
  split.
  - intros Hlt.
    destruct (Z.ltb_spec (Z.of_nat i) (Z.of_nat (length ps) - 1)); [|lia].
    rewrite retry_labels_retry. simpl. rewrite !retry_labels_app. simpl.
    rewrite !app_nil_r. f_equal. f_equal. unfold fallbackType_of. simpl.
    rewrite Ht. unfold variant.
    destruct i as [|i]; [done|].
    by destruct (Z.ltb_spec 0 (Z.of_nat (S i))); [|lia].
  - intros Hlast ->.
    destruct (Z.ltb_spec (Z.of_nat i) (Z.of_nat (length ps) - 1)); [lia|].
    rewrite retry_labels_retry. simpl. rewrite !retry_labels_app. simpl.
    rewrite !app_nil_r. f_equal. f_equal. unfold fallbackType_of. simpl.
    by rewrite orb_true_r.
Qed.

Lemma retry_label_witness :
  retry_labels (out (after_failures (fresh signaling_server defaults_ports Http true) 1)) =
    ["nonfallback"].
Proof.
  destruct (retry_label [6001; 80; 3000] 0 6001 WebSocket
              (after_failures (fresh signaling_server defaults_ports Http true) 0))
    as (H & _).
  - apply (bool_decide_unpack _). vm_compute. exact I.
  - unfold at_port. vm_compute. repeat split. exists 1%nat. split; [reflexivity|].
    apply list_elem_of_here.
  - reflexivity.
  - apply H. simpl. lia.
Defined.

Lemma reconnect_disconnects (s : state) (id : nat) :
  _socket s = Some id →
  disconnected (out (_reconnect s)) = disconnected (out s) ++ [id].
Proof.
  intros Hid. unfold _reconnect. rewrite Hid.
  set (s0 := set_listening _ s).
  assert (Hd1 : disconnected (out (disconnect s0)) = disconnected (out s) ++ [id]).
  { unfold disconnect, s0. cbn [_socket set_listening]. rewrite Hid.
    cbn [out emit set_listening]. by rewrite disconnected_app. }
  generalize dependent (disconnect s0). intros s1 Hd1.
  destruct (_ =? -1); [by rewrite disconnected_retry|].
  destruct (_ <? _); [by rewrite disconnected_retry|].
  destruct (transport (_connection s1)); [by rewrite disconnected_retry|].
  cbn [out emit set_flags]. rewrite disconnected_app, Hd1. cbn.
  by rewrite app_nil_r.
Qed.

(** X11.  [connect] does not unhook the socket it replaces: a socket
    object that carried handlers before [connect] carries them after, and
    when such an older object reports that its reconnection attempts have
    failed, it is the socket now in use that is told to disconnect. *)
Theorem stale_socket_still_heard (s : state) (id : nat) :
  id ∈ listening s →
  id ∈ listening (connect s) ∧
  disconnected (out (connect s)) = disconnected (out s) ∧
  disconnected (out (on_io id io_reconnect_failed (connect s))) =
    disconnected (out s) ++ [S (sockets_made s)].
Proof.
  intros Hin.
  assert (H1 : id ∈ listening (connect s)).
  { unfold connect, _listenToEvents. cbn. by apply list_elem_of_further. }
  assert (H2 : disconnected (out (connect s)) = disconnected (out s)).
  { unfold connect, _listenToEvents. cbn. by rewrite disconnected_app, app_nil_r. }
  split; [done|]. split; [done|].
  unfold on_io. rewrite bool_decide_eq_true_2 by done.
  unfold handler.
  rewrite (reconnect_disconnects _ (S (sockets_made s))) by reflexivity.
  cbn [out emit]. rewrite disconnected_app, H2. cbn. by rewrite app_nil_r.
Qed.

Lemma stale_socket_still_heard_witness :
  disconnected (out (on_io 1 io_reconnect_failed (connect flushed))) =
    disconnected (out flushed) ++ [2%nat].
Proof.
  destruct (stale_socket_still_heard flushed 1) as (_ & _ & H).
  - apply (bool_decide_unpack _). vm_compute. exact I.
  - exact H.
Defined.

End SocketRetries.

Module PeerInvariants.
Import Eff Peer PeerFacts.

(** X12.  When the three transforms leave the lines alone, the primitive
    receives the description with its text unchanged: splitting on CRLF
    and joining again loses nothing. *)
Theorem text_survives_split_and_join `{SDP} (p : peer) (pc : nat)
    (d : description) (failure : option string) :
  RTCPeerConnection p = Some pc →
  (∀ l, removeH264Support l = l) → (∀ l, addStereo l = l) →
  (∀ l b, setBitrate l b = l) →
  ∃ rest, log_of (setLocalDescription d failure p) =
            Rtc_setLocalDescription pc d :: rest.
Proof.
  intros Hpc H1 H2 H3.
  assert (Hsdp : rewritten_sdp p (d_sdp d) = d_sdp d).
  { unfold rewritten_sdp. rewrite H1.
    destruct (stereo_required p); rewrite ?H2;
      destruct (globals_bandwidth p); rewrite ?H3; apply join_split_crlf. }
  unfold setLocalDescription, Eff.bind, deref, tell, gets, log_of.
  repeat (progress (simpl; rewrite ?Hpc, ?Hsdp)).
  destruct d as [ty sdp]. simpl.
  destruct failure; simpl; [by eexists|].
  case_decide; simpl; by eexists.
Qed.

Lemma text_survives_split_and_join_witness :
  ∃ rest,
    log_of (@setLocalDescription identity_SDP
              (mkDescription "offer" ("v=0" +:+ crlf +:+ crlf +:+ "m=audio" +:+ crlf))
              None negotiating_stereo) =
    Rtc_setLocalDescription 1
      (mkDescription "offer" ("v=0" +:+ crlf +:+ crlf +:+ "m=audio" +:+ crlf)) :: rest.
Proof.
  apply (@text_survives_split_and_join identity_SDP negotiating_stereo 1%nat).
  - reflexivity.
  - intros l. reflexivity.
  - intros l. reflexivity.
  - intros l b. reflexivity.
Defined.

(** *** Data channels *)





(** *** The connection object *)

Section WithSDP.
Context `{SDP}.




End WithSDP.


End PeerInvariants.

(** ** Skylink: the getters and the setter together *)

Module SkylinkInvariants.
Import Eff Skylink SkylinkFacts.

Lemma getPeerInfo_pure v s : ∃ r, getPeerInfo v s = (s, [], r).
Proof.
  unfold getPeerInfo, Eff.bind at 1, gets. simpl.
  destruct (is_string v && _).
  - unfold Eff.ret.
    destruct (get_property _ (to_key v)) as [[| |]| | |]; by eexists.
  - unfold Eff.bind, Eff.ret. destruct (self_info_pure s) as [r ->].
    destruct r; by eexists.
Qed.

Lemma getUserData_pure v s : ∃ r, getUserData v s = (s, [], r).
Proof.
  unfold getUserData. destruct (truthy v); [|by eexists].
  unfold Eff.bind, deref, gets. destruct (_user s) as [u|]; [|by eexists]. simpl.
  destruct (differs v (sid u)); [|by eexists]. simpl.
  unfold Eff.ret, raise.
  destruct (get_property _ (to_key v)) as [[| |]| | |]; by eexists.
Qed.

(** X15.  Both getters only read: whatever the argument, and also when they
    throw, they leave the instance as it is and send, publish or log
    nothing. *)
Theorem getters_only_read (s : skylink) (v : jsval) :
  state_of (getPeerInfo v s) = s ∧ log_of (getPeerInfo v s) = [] ∧
  state_of (getUserData v s) = s ∧ log_of (getUserData v s) = [].
Proof.
  destruct (getPeerInfo_pure v s) as [r1 ->].
  destruct (getUserData_pure v s) as [r2 ->]. done.
Qed.

Lemma setUserData_state s d :
  state_of (setUserData d s) = set_userData (js_or d (JStr "")) s.
Proof.
  set (s1 := set_userData (js_or d (JStr "")) s).
  unfold setUserData, _parseUserData, Eff.bind, modify, gets, tell, deref.
  fold s1. simpl. destruct (_inRoom s); [|done].
  change (_user s1) with (_user s). change (_room s1) with (_room s).
  destruct (_user s) as [u|] eqn:Hu; [|done]. simpl.
  destruct (_room s) as [r|] eqn:Hr; [|done]. simpl.
  change (_user s1) with (_user s). rewrite Hu. simpl.
  destruct (getPeerInfo_self s1) as (ri & -> & _).
  by destruct ri as [[|i|i|]|e].
Qed.

Lemma js_or_idem d : js_or (js_or d (JStr "")) (JStr "") = js_or d (JStr "").
Proof. unfold js_or. by destruct (truthy d) eqn:E; [rewrite E|]. Qed.

Lemma self_info_userData s i :
  value_of (self_info s) = Ret i → userData i = js_or (_userData s) (JStr "").
Proof.
  unfold self_info, Eff.bind, gets, deref, Eff.ret, clone. simpl.
  destruct (_mediaScreen s); simpl.
  - destruct (_screenSharingStreamSettings s); simpl; [|done].
    destruct (_streamSettings s); simpl; [|done]. by intros [= <-].
  - destruct (_streamSettings s); simpl; [|done]. by intros [= <-].
Qed.

Lemma getPeerInfo_self_userData w s i :
  value_of (getPeerInfo w s) = Ret (InfoSelf i) →
  userData i = js_or (_userData s) (JStr "").
Proof.
  unfold getPeerInfo, Eff.bind at 1, gets. simpl.
  destruct (is_string w && _).
  - unfold Eff.ret. by destruct (get_property _ (to_key w)) as [[| |]| | |].
  - unfold Eff.bind, Eff.ret. destruct (self_info_pure s) as [r Hr].
    pose proof (self_info_userData s) as Hu. rewrite Hr in *. simpl in *.
    destruct r as [x|e]; simpl; [|done]. intros [= <-]. by apply Hu.
Qed.

(** X16.  What [setUserData] stores is what the getters give back for self:
    [getUserData] with a falsy argument answers with it, and it is the
    [userData] field of the information of self whenever [getPeerInfo]
    builds it, in a room or not, and also when [setUserData] threw after
    storing. *)
Theorem user_data_round_trip (s : skylink) (d v w : jsval) :
  truthy v = false →
  value_of (getUserData v (state_of (setUserData d s))) =
    Ret (DataSelf (js_or d (JStr ""))) ∧
  ∀ i, value_of (getPeerInfo w (state_of (setUserData d s))) = Ret (InfoSelf i) →
       userData i = js_or d (JStr "").
Proof.
  intros Hv. rewrite setUserData_state. split.
  - unfold getUserData. by rewrite Hv.
  - intros i Hi. rewrite (getPeerInfo_self_userData _ _ _ Hi). simpl.
    apply js_or_idem.
Qed.

Lemma user_data_round_trip_witness :
  value_of (getUserData JUndefined (state_of (setUserData (JStr "carol") outside))) =
    Ret (DataSelf (JStr "carol")).
Proof.
  destruct (user_data_round_trip outside (JStr "carol") JUndefined JUndefined)
    as (H & _).
  - reflexivity.
  - exact H.
Defined.

(** X17.  For a peer with a stored information object, [getPeerInfo] answers
    with that object and [getUserData] with its [userData] field. *)
Theorem stored_peer_is_returned (s : skylink) (u : user) (i peerId : string)
    (x : peerInfo) :
  _user s = Some u → sid u = Some i → i ≠ "" → peerId ≠ "" → peerId ≠ i →
  _peerInformations s !! peerId = Some (EInfo x) →
  getPeerInfo (JStr peerId) s = (s, [], Ret (InfoStored x)) ∧
  getUserData (JStr peerId) s = (s, [], Ret (DataStored (userData x))).
Proof.
  intros Hu Hs Hi Hp Hne Hx.
  unfold getPeerInfo, getUserData, Eff.bind, gets, deref, Eff.ret.
  repeat (progress (simpl;
    rewrite ?Hu, ?Hs, ?(get_property_own _ _ _ Hx), ?bool_decide_eq_false_2
      by done)).
  done.
Qed.

Lemma stored_peer_is_returned_witness :
  value_of (getUserData (JStr "peer-1") joined) = Ret (DataStored (JStr "bob")).
Proof.
  destruct (stored_peer_is_returned joined (mkUser "user-1" (Some "self-1"))
              "self-1" "peer-1"
              (mkPeerInfo (JStr "bob") None (mkMediaStatus (JBool false) (JBool false))
                 "firefox" 40 JUndefined)) as (_ & H).
  - reflexivity.
  - reflexivity.
  - intros E. discriminate E.
  - intros E. discriminate E.
  - intros E. discriminate E.
  - vm_compute. reflexivity.
  - rewrite H. reflexivity.
Defined.


(** X19.  The information built for self never reports a disabled track as
    unmuted: when the audio (video) setting is falsy the status says
    muted.  While screensharing, an enabled video setting is replaced by
    the screenshare marker.  Building it fails exactly when the stream
    settings it reads are missing. *)
Theorem self_info_status (s : skylink) :
  (∀ i, value_of (self_info s) = Ret i →
     ∃ ms, settings i = Some ms ∧
       (truthy (audio ms) = false → audioMuted (mediaStatus i) = JBool true) ∧
       (truthy (video ms) = false → videoMuted (mediaStatus i) = JBool true) ∧
       (_mediaScreen s = true → truthy (video ms) = true →
        video ms = JObj [("screenshare", JBool true)])) ∧
  (value_of (self_info s) = Raise "TypeError" ↔
     _streamSettings s = None ∨
     (_mediaScreen s = true ∧ _screenSharingStreamSettings s = None)).
Proof.
  unfold self_info, Eff.bind, gets, deref, Eff.ret, clone. simpl.
  destruct (_mediaScreen s); simpl.
  - destruct (_screenSharingStreamSettings s) as [sc|]; simpl;
      [|split; [done|split; [by auto|done]]].
    destruct (_streamSettings s) as [ss|]; simpl;
      [|split; [done|split; [by auto|done]]].
    split; [|split; [done|by intros [?|[_ ?]]]].
    intros i [= <-]. simpl. eexists. split; [done|].
    destruct (truthy (video sc)) eqn:Ev; simpl; rewrite ?Ev;
      destruct (truthy (audio sc)) eqn:Ea; simpl; by repeat split.
  - destruct (_streamSettings s) as [ss|]; simpl;
      [|split; [done|split; [by auto|done]]].
    split; [|split; [done|by intros [?|[? _]]]].
    intros i [= <-]. simpl. eexists. split; [done|].
    destruct (truthy (video ss)) eqn:Ev; simpl;
      destruct (truthy (audio ss)) eqn:Ea; simpl; by repeat split.
Qed.

(** X20.  In a room, but without credentials or without a room object,
    [setUserData] stores the data, logs it and throws before anything is
    sent or published. *)
Theorem in_room_without_credentials (s : skylink) (d : jsval) :
  _inRoom s = true → _user s = None ∨ _room s = None →
  setUserData d s =
    (set_userData (js_or d (JStr "")) s, [LogUpdated d], Raise "TypeError").
Proof.
  intros Hin Hmiss.
  set (s1 := set_userData (js_or d (JStr "")) s).
  unfold setUserData, _parseUserData, Eff.bind, modify, gets, tell, deref.
  fold s1. simpl. rewrite Hin.
  change (_user s1) with (_user s). change (_room s1) with (_room s).
  destruct (_user s) as [u|] eqn:Hu; [|done]. simpl.
  destruct Hmiss as [?|Hr]; [done|]. by rewrite Hr.
Qed.

Lemma in_room_without_credentials_witness :
  setUserData (JStr "carol")
    (mkSkylink ∅ None (JStr "") true None None false None (Some plain_settings)
       JUndefined "chrome" 45) =
  (set_userData (JStr "carol")
     (mkSkylink ∅ None (JStr "") true None None false None (Some plain_settings)
        JUndefined "chrome" 45),
   [LogUpdated (JStr "carol")], Raise "TypeError").
Proof.
  apply (in_room_without_credentials
           (mkSkylink ∅ None (JStr "") true None None false None
              (Some plain_settings) JUndefined "chrome" 45) (JStr "carol")).
  - reflexivity.
  - left. reflexivity.
Defined.


Lemma self_info_status_witness :
  ∃ ms, settings (mkPeerInfo (JStr "") (Some (mkSettings (JBool true) (JBool false) JUndefined))
                    (mkMediaStatus JUndefined (JBool true)) "chrome" 45 JUndefined) = Some ms ∧
        (truthy (video ms) = false →
         videoMuted (mkMediaStatus JUndefined (JBool true)) = JBool true).
Proof.
  destruct (self_info_status
              (mkSkylink ∅ None (JStr "") false None None false None
                 (Some (mkSettings (JBool true) (JBool false) JUndefined))
                 JUndefined "chrome" 45)) as (H & _).
  destruct (H (mkPeerInfo (JStr "") (Some (mkSettings (JBool true) (JBool false) JUndefined))
                 (mkMediaStatus JUndefined (JBool true)) "chrome" 45 JUndefined))
    as (ms & H1 & _ & H3 & _).
  - reflexivity.
  - exists ms. split; [exact H1|exact H3].
Defined.

End SkylinkInvariants.
